(** * bot.py: the webhook-to-score pipeline, embedded and verified

    A shallow embedding of [src/bot.py]: the signature check of the webhook
    endpoint, the extraction of the linked issue from the pull-request body,
    the label policy, the score ledger and the leaderboard query, followed by
    the theorems that settle the specification's claims about them. *)

From Stdlib Require Import NArith ZArith Lia String Ascii Bool.
From stdpp Require Import base option list gmap sorting.

Local Open Scope N_scope.

(** ** Text and bytes

    A Python [str] is a sequence of Unicode code points; a [bytes] object is a
    sequence of octets.  Both are lists of [N].  [u] reads a literal of this
    file as a [str] (its characters are below 256). *)

Abbreviation char := N.
Abbreviation str := (list N).
Abbreviation bytes := (list N).

Fixpoint u (s : string) : str :=
  match s with
  | EmptyString => []
  | String c s' => N_of_ascii c :: u s'
  end.

(** [str.isascii()]: every code point is below 128. *)
Definition isascii (s : str) : bool := forallb (fun c => c <? 128) s.

(** ** SHA-256 (hashlib.sha256) and HMAC (hmac.new(key, msg, sha256))

    32-bit words are numbers below [2^32]; additions wrap around. *)

Module Sha256.

Definition w32 (x : N) : N := x mod 2 ^ 32.
Definition add32 (a b : N) : N := w32 (a + b).
Definition rotr (n x : N) : N := N.lor (N.shiftr x n) (w32 (N.shiftl x (32 - n))).
Definition not32 (x : N) : N := N.lxor x 0xffffffff.

Definition Ch (e f g : N) : N := N.lxor (N.land e f) (N.land (not32 e) g).
Definition Maj (a b c : N) : N :=
  N.lxor (N.lxor (N.land a b) (N.land a c)) (N.land b c).
Definition Sigma0 (a : N) : N := N.lxor (N.lxor (rotr 2 a) (rotr 13 a)) (rotr 22 a).
Definition Sigma1 (e : N) : N := N.lxor (N.lxor (rotr 6 e) (rotr 11 e)) (rotr 25 e).
Definition sigma0 (x : N) : N := N.lxor (N.lxor (rotr 7 x) (rotr 18 x)) (N.shiftr x 3).
Definition sigma1 (x : N) : N := N.lxor (N.lxor (rotr 17 x) (rotr 19 x)) (N.shiftr x 10).

(** The constants of FIPS 180-4, from their definition: the first 32 bits of
    the fractional parts of the cube roots (round constants) and of the square
    roots (initial hash value) of the first primes. *)
Definition first_primes : list N :=
  [2; 3; 5; 7; 11; 13; 17; 19; 23; 29; 31; 37; 41; 43; 47; 53; 59; 61; 67; 71;
   73; 79; 83; 89; 97; 101; 103; 107; 109; 113; 127; 131; 137; 139; 149; 151;
   157; 163; 167; 173; 179; 181; 191; 193; 197; 199; 211; 223; 227; 229; 233;
   239; 241; 251; 257; 263; 269; 271; 277; 281; 283; 293; 307; 311].

(** The integer cube root, one bit at a time from bit [bit - 1] down. *)
Fixpoint cube_root_bits (bit : nat) (n r : N) : N :=
  match bit with
  | O => r
  | S bit' =>
      let r' := r + 2 ^ N.of_nat bit' in
      cube_root_bits bit' n (if r' * r' * r' <=? n then r' else r)
  end.

Definition cube_root (n : N) : N := cube_root_bits 40 n 0.

Definition K : list N :=
  Eval vm_compute in map (fun p => w32 (cube_root (p * 2 ^ 96))) first_primes.

Definition H0 : list N :=
  Eval vm_compute in map (fun p => w32 (N.sqrt (p * 2 ^ 64))) (take 8 first_primes).

(** Big-endian words of a byte sequence, four bytes each. *)
Fixpoint words_of (bs : bytes) : list N :=
  match bs with
  | a :: b :: c :: d :: rest =>
      (a * 2 ^ 24 + b * 2 ^ 16 + c * 2 ^ 8 + d) :: words_of rest
  | _ => []
  end.

(** The [n] low bytes of [x], most significant first. *)
Fixpoint be_bytes (n : nat) (x : N) : bytes :=
  match n with
  | O => []
  | S n' => (N.shiftr x (8 * N.of_nat n')) mod 256 :: be_bytes n' x
  end.

(** Padding: the bit 1, zeros up to 56 modulo 64, the bit length on 8 bytes. *)
Definition pad (msg : bytes) : bytes :=
  let len := N.of_nat (length msg) in
  let zeros := N.to_nat ((119 - len mod 64) mod 64) in
  msg ++ [0x80] ++ replicate zeros 0 ++ be_bytes 8 (8 * len).

(** The message schedule: [n] more words after the ones in [w]. *)
Fixpoint schedule (n : nat) (w : list N) : list N :=
  match n with
  | O => w
  | S n' =>
      let t := length w in
      let x := add32 (add32 (sigma1 (nth (t - 2) w 0)) (nth (t - 7) w 0))
                     (add32 (sigma0 (nth (t - 15) w 0)) (nth (t - 16) w 0)) in
      schedule n' (w ++ [x])
  end.

Record regs := Regs { ra : N; rb : N; rc : N; rd : N; re : N; rf : N; rg : N; rh : N }.

Definition round (r : regs) (kw : N * N) : regs :=
  let t1 := add32 (add32 (add32 (rh r) (Sigma1 (re r))) (Ch (re r) (rf r) (rg r)))
                  (add32 (fst kw) (snd kw)) in
  let t2 := add32 (Sigma0 (ra r)) (Maj (ra r) (rb r) (rc r)) in
  Regs (add32 t1 t2) (ra r) (rb r) (rc r) (add32 (rd r) t1) (re r) (rf r) (rg r).

Definition regs_of (h : list N) : regs :=
  Regs (nth 0 h 0) (nth 1 h 0) (nth 2 h 0) (nth 3 h 0)
       (nth 4 h 0) (nth 5 h 0) (nth 6 h 0) (nth 7 h 0).

Definition compress (h : list N) (block : bytes) : list N :=
  let w := schedule 48 (words_of block) in
  let r0 := regs_of h in
  let r := fold_left round (combine K w) r0 in
  [ add32 (ra r0) (ra r); add32 (rb r0) (rb r); add32 (rc r0) (rc r);
    add32 (rd r0) (rd r); add32 (re r0) (re r); add32 (rf r0) (rf r);
    add32 (rg r0) (rg r); add32 (rh r0) (rh r) ].

(** One block of 64 bytes per unit of [n]. *)
Fixpoint blocks (n : nat) (h : list N) (bs : bytes) : list N :=
  match n with
  | O => h
  | S n' => blocks n' (compress h (take 64 bs)) (drop 64 bs)
  end.

Definition digest (msg : bytes) : bytes :=
  let p := pad msg in
  flat_map (be_bytes 4) (blocks (length p / 64) H0 p).

End Sha256.

Module Hmac.

Definition block_size : nat := 64.

(** Keys longer than a block are hashed first; the key is then zero-padded. *)
Definition block_key (key : bytes) : bytes :=
  let k := if decide (block_size < length key)%nat then Sha256.digest key else key in
  k ++ replicate (block_size - length k) 0.

Definition xor_with (c : N) (bs : bytes) : bytes := map (N.lxor c) bs.

Definition digest (key msg : bytes) : bytes :=
  let k := block_key key in
  Sha256.digest (xor_with 0x5c k ++ Sha256.digest (xor_with 0x36 k ++ msg)).

End Hmac.

(** [bytes.hex()] / [hexdigest()]: two lower-case hexadecimal digits per byte. *)
Definition hex_digit (d : N) : char := if d <? 10 then 48 + d else 87 + d.

Definition hex (bs : bytes) : str :=
  flat_map (fun b => [hex_digit (b / 16 mod 16); hex_digit (b mod 16)]) bs.


(** ** Python values

    The values the handler meets are those of parsed JSON: [None], booleans,
    integers, strings, lists and dictionaries (an association list, looked up
    by its first entry for a key).  Numbers are integers: no field the
    program reads is fractional. *)

#[local] Set Warnings "-register-all".

Inductive json :=
| JNull
| JBool (b : bool)
| JInt (z : Z)
| JStr (s : str)
| JList (l : list json)
| JDict (d : list (str * json)).

(** Exceptions the modelled statements raise.  [HTTPException c] is what
    flask's [abort(c)] raises, [OverflowError] what sqlite3 raises for an
    integer it cannot store.  [NotModelled] marks a run that leaves the
    fragment covered here: a login that is not a string reaching sqlite3. *)
Inductive exn :=
| HTTPException (code : Z)
| KeyError
| TypeError
| AttributeError
| ValueError
| ConnectionError
| JSONDecodeError
| IntegrityError
| OverflowError
| NotModelled.

Inductive res (A : Type) :=
| Ret (a : A)
| Raise (e : exn).
Arguments Ret {A} a.
Arguments Raise {A} e.

(** Truth value of a Python object ([bool(v)]). *)
Definition truthy (v : json) : bool :=
  match v with
  | JNull => false
  | JBool b => b
  | JInt z => negb (z =? 0)%Z
  | JStr s => negb (bool_decide (s = []))
  | JList l => match l with [] => false | _ => true end
  | JDict d => match d with [] => false | _ => true end
  end.

Fixpoint assoc (k : str) (d : list (str * json)) : option json :=
  match d with
  | [] => None
  | (k', v) :: d' => if bool_decide (k = k') then Some v else assoc k d'
  end.

(** [v == s] for a string literal [s]. *)
Definition eq_str (v : json) (s : str) : bool :=
  match v with
  | JStr t => bool_decide (t = s)
  | _ => false
  end.

(** [v.get(k, d)]: only dictionaries have the method. *)
Definition dict_get (v : json) (k : str) (d : json) : res json :=
  match v with
  | JDict kvs => Ret (default d (assoc k kvs))
  | _ => Raise AttributeError
  end.

(** [v[k]] for a string key [k]: a missing key of a dictionary raises
    [KeyError]; every other value refuses a string subscript. *)
Definition getitem (v : json) (k : str) : res json :=
  match v with
  | JDict kvs =>
      match assoc k kvs with
      | Some x => Ret x
      | None => Raise KeyError
      end
  | _ => Raise TypeError
  end.

(** [for x in v]: the elements of a list, the keys of a dictionary, the
    characters of a string; other values are not iterable. *)
Definition iterate (v : json) : res (list json) :=
  match v with
  | JList l => Ret l
  | JDict kvs => Ret (map (fun kv => JStr (fst kv)) kvs)
  | JStr s => Ret (map (fun c => JStr [c]) s)
  | _ => Raise TypeError
  end.

(** [str(n)] for an integer: decimal digits, a minus sign when negative. *)
Fixpoint decimal_digits (fuel : nat) (n : N) (acc : str) : str :=
  match fuel with
  | O => acc
  | S fuel' =>
      let acc' := (48 + n mod 10) :: acc in
      if n <? 10 then acc' else decimal_digits fuel' (n / 10) acc'
  end.

Definition str_of_N (n : N) : str := decimal_digits (S (N.to_nat (N.log2 n))) n [].

Definition str_of_int (z : Z) : str :=
  if (z <? 0)%Z then 45 :: str_of_N (Z.abs_N z) else str_of_N (Z.to_N z).

(** ** The world outside the process *)

(** What [requests.get(url)] comes back with: an exception of the requests
    library (no connection, no answer), or a response with its status code
    and its body as JSON when it is JSON. *)
Inductive fetch :=
| ConnectionFailed
| Responded (status_code : Z) (body : option json).

(** The deployment of one run: the webhook secret as bytes
    ([GITHUB_SECRET.encode('utf-8')]), the code-hosting service, whether
    [bot.get_channel(LEADERBOARD_CHANNEL_ID)] finds the channel, and the two
    tables of the interpreter's Unicode database the program consults: the
    decimal digits with their values (what [\d] matches and [int] reads) and
    [str.lower]. *)
Record env := Env {
  secret_key : bytes;
  requests_get : str -> fetch;
  channel_found : bool;
  decimal_value : char -> option N;
  str_lower : str -> str
}.

(** The Basic Latin part of the two tables, on which every version of the
    Unicode database agrees; used for concrete runs on ASCII text. *)
Definition basic_latin_decimal (c : char) : option N :=
  if (48 <=? c) && (c <=? 57) then Some (c - 48) else None.

Definition basic_latin_lower (s : str) : str :=
  map (fun c => if (65 <=? c) && (c <=? 90) then c + 32 else c) s.

(** ** Effects

    What a run leaves behind, in order: the evaluation of [request.json], the
    outbound request, lines printed, the message handed to the chat loop and
    the answer to a chat command. *)

Inductive message :=
| DebugInfo                                   (* bot.py:69 *)
| ErrorFetching (issue_number status_code : Z) (* bot.py:70 *)
| UrlTried (url : str)                         (* bot.py:71 *)
| DoubleCheck (issue_number : Z)               (* bot.py:72 *)
| EndDebugInfo                                 (* bot.py:73 *)
| UpdatedScore (username : str) (points : Z)   (* bot.py:59 *)
| NoLinkedIssue (pr_number : json).            (* bot.py:137 *)

Inductive chat :=
| Text (content : str)
| Embed (title description : str).

Inductive event :=
| EvalJson
| HttpGet (url : str)
| Print (m : message)
| ChannelSend (pr_title pr_url : json) (username : str) (points : Z)
| CtxSend (c : chat).

(** The state a run threads: the table [scores] of scores.db (primary key
    [github_username], column [points]) and the effects so far. *)
Record world := World {
  scores : gmap str Z;
  trace : list event
}.

Definition M (A : Type) : Type := world -> res A * world.

#[global] Instance M_ret : MRet M := fun A a w => (Ret a, w).
#[global] Instance M_bind : MBind M := fun A B f m w =>
  match m w with
  | (Ret a, w') => f a w'
  | (Raise e, w') => (Raise e, w')
  end.

Definition ret {A} (a : A) : M A := mret a.
Definition raise {A} (e : exn) : M A := fun w => (Raise e, w).
Definition lift {A} (r : res A) : M A := fun w => (r, w).
Definition emit (ev : event) : M unit :=
  fun w => (Ret tt, World (scores w) (trace w ++ [ev])).
Definition print (m : message) : M unit := emit (Print m).
Definition abort {A} (code : Z) : M A := raise (HTTPException code).
Definition get_scores : M (gmap str Z) := fun w => (Ret (scores w), w).
Definition put_scores (s : gmap str Z) : M unit :=
  fun w => (Ret tt, World s (trace w)).

(** The world after more effects. *)
Definition after (w : world) (evs : list event) : world :=
  World (scores w) (trace w ++ evs).

(** ** Regular expressions (the fragment of [re] the program uses)

    Matching backtracks as [re] does: alternatives are tried left to right,
    a repetition takes as much as it can and gives back one character at a
    time, and [search] tries every start position from the left. *)

Module Re.

Inductive class := Space | Digit.

Inductive regex :=
| Empty
| Lit (c : char)
| Class (k : class)
| Seq (r1 r2 : regex)
| Alt (r1 r2 : regex)
| Repeat1 (k : class)
| Group (r : regex).

(** [\s] on a [str] pattern: the code points for which [str.isspace] holds. *)
Definition isspace (c : char) : bool :=
  existsb (N.eqb c)
    [0x9; 0xa; 0xb; 0xc; 0xd; 0x1c; 0x1d; 0x1e; 0x1f; 0x20; 0x85; 0xa0;
     0x1680; 0x2028; 0x2029; 0x202f; 0x205f; 0x3000]
  || ((0x2000 <=? c) && (c <=? 0x200a)).

Definition is_upper (c : char) : bool := (65 <=? c) && (c <=? 90).
Definition is_lower (c : char) : bool := (97 <=? c) && (c <=? 122).

(** The code points an ASCII literal [p] matches under [re.IGNORECASE]: both
    cases of a letter, and the three letters whose case folding leaves ASCII
    (dotted and dotless i, long s, the Kelvin sign). *)
Definition ignorecase_variants (p : char) : list char :=
  let lo := if is_upper p then p + 32 else p in
  if is_lower lo then
    [lo; lo - 32] ++
    (if lo =? 105 then [0x130; 0x131]
     else if lo =? 115 then [0x17f]
     else if lo =? 107 then [0x212a]
     else [])
  else [p].

Section Engine.

(** The flag [re.IGNORECASE] and the interpreter's table of decimal digits. *)
Variable ignorecase : bool.
Variable isdecimal : char -> bool.

Definition lit_matches (p c : char) : bool :=
  if ignorecase then existsb (N.eqb c) (ignorecase_variants p) else p =? c.

Definition class_matches (k : class) (c : char) : bool :=
  match k with
  | Space => isspace c
  | Digit => isdecimal c
  end.

(** Zero or more characters of a class, longest first. *)
Fixpoint repeat0 {A} (p : char -> bool) (s : str) (k : str -> option A) : option A :=
  match s with
  | c :: s' =>
      if p c then
        match repeat0 p s' k with
        | Some a => Some a
        | None => k s
        end
      else k s
  | [] => k []
  end.

(** [exec r s caps k]: match [r] at the head of [s], then continue with [k]
    on what is left and on the groups captured so far. *)
Fixpoint exec {A} (r : regex) (s : str) (caps : list str)
    (k : str -> list str -> option A) : option A :=
  match r with
  | Empty => k s caps
  | Lit p =>
      match s with
      | c :: s' => if lit_matches p c then k s' caps else None
      | [] => None
      end
  | Class cl =>
      match s with
      | c :: s' => if class_matches cl c then k s' caps else None
      | [] => None
      end
  | Seq r1 r2 => exec r1 s caps (fun s' caps' => exec r2 s' caps' k)
  | Alt r1 r2 =>
      match exec r1 s caps k with
      | Some a => Some a
      | None => exec r2 s caps k
      end
  | Repeat1 cl =>
      match s with
      | c :: s' =>
          if class_matches cl c
          then repeat0 (class_matches cl) s' (fun s'' => k s'' caps)
          else None
      | [] => None
      end
  | Group r' =>
      exec r' s caps
        (fun s' caps' => k s' (caps' ++ [take (length s - length s') s]))
  end.

(** [re.search]: the groups of the first position at which [r] matches. *)
Fixpoint search (r : regex) (s : str) : option (list str) :=
  match exec r s [] (fun _ caps => Some caps) with
  | Some caps => Some caps
  | None =>
      match s with
      | [] => None
      | _ :: s' => search r s'
      end
  end.

End Engine.

(** A word as a pattern: its characters in sequence. *)
Fixpoint literal (w : str) : regex :=
  match w with
  | [] => Empty
  | c :: w' => Seq (Lit c) (literal w')
  end.

(** [r|r1|...|rn]. *)
Fixpoint any_of (r : regex) (rs : list regex) : regex :=
  match rs with
  | [] => r
  | r' :: rs' => Alt r (any_of r' rs')
  end.

(** [w|w1|...|wn] for words. *)
Definition words (ws : list str) : regex :=
  match ws with
  | [] => Empty
  | w :: ws' => any_of (literal w) (map literal ws')
  end.

End Re.

(** The closing keywords, in the order of the pattern at bot.py:134. *)
Definition closing_keywords : list str :=
  [u "close"; u "closes"; u "closed"; u "fix"; u "fixes"; u "fixed";
   u "resolve"; u "resolves"; u "resolved"].

(** r"(?:close|closes|closed|fix|fixes|fixed|resolve|resolves|resolved)\s#(\d+)" *)
Definition issue_pattern : Re.regex :=
  Re.Seq (Re.words closing_keywords)
    (Re.Seq (Re.Class Re.Space)
       (Re.Seq (Re.Lit 35) (Re.Group (Re.Repeat1 Re.Digit)))).

(** [int(s)] on a run of decimal digits (what group 1 of the pattern holds):
    the number they write in base ten.  A character that is no decimal digit,
    or no character at all, is a [ValueError]; so is a text of more digits
    than the interpreter converts ([sys.get_int_max_str_digits()], 4300
    unless the deployment changes it; leading zeros count). *)
Definition int_max_str_digits : nat := 4300.

Fixpoint int_digits (value : char -> option N) (s : str) (acc : N) : option N :=
  match s with
  | [] => Some acc
  | c :: s' =>
      match value c with
      | Some d => int_digits value s' (10 * acc + d)
      | None => None
      end
  end.

Definition int_of_str (value : char -> option N) (s : str) : res Z :=
  match s with
  | [] => Raise ValueError
  | _ =>
      if (int_max_str_digits <? length s)%nat then Raise ValueError
      else
        match int_digits value s 0 with
        | Some n => Ret (Z.of_N n)
        | None => Raise ValueError
        end
  end.

(** ** The program *)

Definition GITHUB_REPO : str := u "LavanyaSharma232/EduEase".

(** *** Score ledger: [update_score] (bot.py:49-59)

    SELECT the row of [username]; UPDATE it when there is one, INSERT
    otherwise; commit; print. *)

(** The points bound to a statement: sqlite3 hands a Python integer to the
    database as a 64-bit signed integer and raises [OverflowError] for one
    that does not fit, before the statement runs.  The table holds such
    integers only and the handler adds 5, 10 or 20 to them, so it is the
    upper end of the range that the points can leave; the check is written
    for that end. *)
Definition sqlite_max_integer : Z := 2 ^ 63 - 1.

Definition bind_points (points : Z) : res Z :=
  if (sqlite_max_integer <? points)%Z then Raise OverflowError else Ret points.

Definition update_score (username : str) (points_to_add : Z) : M unit :=
  db ← get_scores;
  match db !! username with
  | Some result =>
      let new_points := (result + points_to_add)%Z in
      bound ← lift (bind_points new_points);
      put_scores (<[username := bound]> db)
  | None =>
      bound ← lift (bind_points points_to_add);
      put_scores (<[username := bound]> db)
  end;;
  print (UpdatedScore username points_to_add).

(** *** Label policy (bot.py:79-85) *)
Definition label_points (labels : gset str) : Z :=
  if decide (u "hard" ∈ labels) then 20
  else if decide (u "medium" ∈ labels) then 10
  else if decide (u "easy" ∈ labels) then 5
  else 0.

(** *** Issue resolver: [get_points_from_pr_labels] (bot.py:63-85) *)

(** [label['name'].lower()]: only a string has the method. *)
Definition label_name (e : env) (label : json) : res str :=
  match getitem label (u "name") with
  | Ret (JStr s) => Ret (str_lower e s)
  | Ret _ => Raise AttributeError
  | Raise x => Raise x
  end.

(** The set comprehension of bot.py:77, element by element. *)
Fixpoint label_names (e : env) (ls : list json) : res (list str) :=
  match ls with
  | [] => Ret []
  | l :: ls' =>
      match label_name e l with
      | Ret n =>
          match label_names e ls' with
          | Ret ns => Ret (n :: ns)
          | Raise x => Raise x
          end
      | Raise x => Raise x
      end
  end.

Definition issue_url (issue_number : Z) : str :=
  u "https://api.github.com/repos/" ++ GITHUB_REPO ++ u "/issues/"
    ++ str_of_int issue_number.

Definition get_points_from_pr_labels (e : env) (issue_number : Z) : M Z :=
  let url := issue_url issue_number in
  emit (HttpGet url);;
  match requests_get e url with
  | ConnectionFailed => raise ConnectionError
  | Responded status_code body =>
      if negb (status_code =? 200)%Z then
        print DebugInfo;;
        print (ErrorFetching issue_number status_code);;
        print (UrlTried url);;
        print (DoubleCheck issue_number);;
        print EndDebugInfo;;
        ret 0%Z
      else
        data ← lift (match body with Some d => Ret d | None => Raise JSONDecodeError end);
        ls ← lift (dict_get data (u "labels") (JList []));
        items ← lift (iterate ls);
        names ← lift (label_names e items);
        let labels : gset str := list_to_set names in
        ret (label_points labels)
  end.

(** *** Leaderboard: [show_leaderboard] (bot.py:88-104) *)

(** [ORDER BY points DESC]: the order on rows. *)
Definition points_desc (r1 r2 : str * Z) : Prop := (r2.2 ≤ r1.2)%Z.

#[global] Instance points_desc_dec (r1 r2 : str * Z) : Decision (points_desc r1 r2).
Proof. unfold points_desc. apply _. Defined.

#[global] Instance points_desc_trans : Transitive points_desc.
Proof. intros x y z. unfold points_desc. lia. Qed.

#[global] Instance points_desc_total : Total points_desc.
Proof. intros x y. unfold points_desc. lia. Qed.

(** SELECT github_username, points FROM scores ORDER BY points DESC LIMIT n.
    SQL leaves the order of rows with equal points open; the rows are sorted
    from the enumeration of the table. *)
Definition select_top (n : nat) (db : gmap str Z) : list (str * Z) :=
  take n (merge_sort points_desc (map_to_list db)).

(** The lines of the embed, ranks counted from [rank]. *)
Fixpoint leaderboard_lines (rank : Z) (results : list (str * Z)) : str :=
  match results with
  | [] => []
  | (username, points) :: rest =>
      u "**" ++ str_of_int rank ++ u ".** " ++ username ++ u " - `"
        ++ str_of_int points ++ u " points`" ++ [10]
        ++ leaderboard_lines (rank + 1) rest
  end.

Definition empty_message : str := u "The leaderboard is currently empty!".

Definition leaderboard_title : str :=
  [0x1F3C6] ++ u " Open Source Event Leaderboard " ++ [0x1F3C6].

Definition show_leaderboard : M unit :=
  db ← get_scores;
  let results := select_top 10 db in
  match results with
  | [] => emit (CtxSend (Text empty_message))
  | _ => emit (CtxSend (Embed leaderboard_title (leaderboard_lines 1 results)))
  end.

(** *** Webhook ingest: [github_webhook] (bot.py:112-160) *)

(** What flask hands the view: the header [X-Hub-Signature-256] when the
    request has one (header values are Latin-1 text), the raw body
    [request.data], and what evaluating [request.json] gives: the parsed body,
    or the error response flask raises when the body is not JSON. *)
Inductive json_attr :=
| Parsed (v : json)
| Refused (code : Z).

Record request := Request {
  signature_header : option str;
  data : bytes;
  json_body : json_attr
}.

Definition response : Type := str * Z.

(** [s.startswith(p)]. *)
Definition startswith (p s : str) : bool := bool_decide (take (length p) s = p).

(** [hmac.compare_digest(a, b)] on two [str]: it accepts ASCII strings only
    and raises [TypeError] otherwise; on ASCII strings it tells whether they
    are equal (in time independent of where they differ). *)
Definition compare_digest (a b : str) : res bool :=
  if isascii a && isascii b then Ret (bool_decide (a = b)) else Raise TypeError.

(** ['sha256=' + hmac.new(key, msg=body, digestmod=sha256).hexdigest()] *)
Definition expected_signature (key body : bytes) : str :=
  u "sha256=" ++ hex (Hmac.digest key body).

(** [request.json] *)
Definition get_json (rq : request) : M json :=
  emit EvalJson;;
  match json_body rq with
  | Parsed v => ret v
  | Refused code => abort code
  end.

(** [\d] in a deployment: the code points with a decimal value. *)
Definition isdecimal (e : env) (c : char) : bool := bool_decide (is_Some (decimal_value e c)).

(** [re.search(pattern, pr_body, re.IGNORECASE)]: the subject must be text. *)
Definition search_issue (e : env) (pr_body : json) : res (option (list str)) :=
  match pr_body with
  | JStr s => Ret (Re.search true (isdecimal e) issue_pattern s)
  | _ => Raise TypeError
  end.

(** The parameter [username] of the SQL statements is text. *)
Definition sql_text (v : json) : res str :=
  match v with
  | JStr s => Ret s
  | _ => Raise NotModelled
  end.

Definition no_content : response := ([], 204%Z).

(** Signature verification (bot.py:115-121). *)
Definition verify_signature (e : env) (rq : request) : M unit :=
  match signature_header rq with
  | None => abort 400
  | Some signature =>
      if bool_decide (signature = []) || negb (startswith (u "sha256=") signature)
      then abort 400
      else
        let expected := expected_signature (secret_key e) (data rq) in
        same ← lift (compare_digest expected signature);
        if negb (same : bool) then abort 403 else ret tt
  end.

(** Lines 144-160: resolve the points of the linked issue and, when there are
    any, record them and hand the announcement to the chat loop. *)
Definition award (e : env) (username pr_title pr_url : json) (issue_number : Z)
    : M response :=
  points ← get_points_from_pr_labels e issue_number;
  (if (0 <? points)%Z then
     name ← lift (sql_text username);
     update_score name points;;
     (if channel_found e
      then emit (ChannelSend pr_title pr_url name points)
      else ret tt)
   else ret tt);;
  ret no_content.

(** Lines 133-144: look for the linked issue in the description. *)
Definition link_issue (e : env) (username pr_number pr_title pr_url pr_body : json)
    : M response :=
  issue_number_match ← lift (search_issue e pr_body);
  match (issue_number_match : option (list str)) with
  | None =>
      print (NoLinkedIssue pr_number);;
      ret no_content
  | Some groups =>
      issue_number ← lift (int_of_str (decimal_value e) (default [] (head groups)));
      award e username pr_title pr_url issue_number
  end.

(** Processing of the payload (bot.py:124-160). *)
Definition process_payload (e : env) (rq : request) : M response :=
  data ← get_json rq;
  action ← lift (dict_get data (u "action") JNull);
  merged_close ←
    (if eq_str action (u "closed") then
       pr ← lift (getitem data (u "pull_request"));
       merged ← lift (getitem pr (u "merged"));
       ret (truthy merged)
     else ret false);
  if (merged_close : bool) then
    pr ← lift (getitem data (u "pull_request"));
    user ← lift (getitem pr (u "user"));
    username ← lift (getitem user (u "login"));
    pr_number ← lift (getitem pr (u "number"));
    pr_title ← lift (getitem pr (u "title"));
    pr_url ← lift (getitem pr (u "html_url"));
    body ← lift (dict_get pr (u "body") JNull);
    let pr_body := if truthy body then body else JStr [] in
    link_issue e username pr_number pr_title pr_url pr_body
  else ret no_content.

Definition github_webhook (e : env) (rq : request) : M response :=
  verify_signature e rq;;
  process_payload e rq.

(** The status line flask answers with: the view's own, the code of an
    [abort], and 500 for any other exception. *)
Definition http_status (r : res response) : Z :=
  match r with
  | Ret (_, code) => code
  | Raise (HTTPException code) => code
  | Raise _ => 500
  end.

Definition run {A} (m : M A) (db : gmap str Z) : res A * world := m (World db []).

(** ** Concurrent deliveries

    The web server answers each delivery on a thread of its own; all threads
    share the connection [con] and its one cursor [cur] (bot.py:29-30).  A call
    of [update_score] is run here statement by statement, and a schedule says
    which call moves next. *)

Module Threads.

(** The shared connection: the table, and the rows the cursor still holds
    from the last statement executed on it. *)
Record conn := Conn {
  table : gmap str Z;
  cursor : list Z
}.

(** Where a call stands: before the statement of the given line. *)
Inductive pc :=
| AtSelect                      (* bot.py:51 *)
| AtFetch                       (* bot.py:52 *)
| AtWrite (result : option Z)   (* bot.py:53-57 *)
| AtCommit                      (* bot.py:58 *)
| AtPrint                       (* bot.py:59 *)
| Finished
| Failed (e : exn).

Record call := Call {
  username : str;
  points_to_add : Z;
  at_line : pc
}.

Definition start (username : str) (points_to_add : Z) : call :=
  Call username points_to_add AtSelect.

Definition goto (c : call) (p : pc) : call := Call (username c) (points_to_add c) p.

(** One statement of one call. *)
Definition step (c : call) (s : conn) : call * conn :=
  match at_line c with
  | AtSelect =>
      (* cur.execute("SELECT points FROM scores WHERE github_username = ?") *)
      (goto c AtFetch,
       Conn (table s) (match table s !! username c with Some p => [p] | None => [] end))
  | AtFetch =>
      (* result = cur.fetchone() *)
      match cursor s with
      | p :: rows => (goto c (AtWrite (Some p)), Conn (table s) rows)
      | [] => (goto c (AtWrite None), s)
      end
  | AtWrite (Some p) =>
      (* UPDATE scores SET points = ? WHERE github_username = ? *)
      let new_points := (p + points_to_add c)%Z in
      match bind_points new_points with
      | Raise x => (goto c (Failed x), Conn (table s) [])
      | Ret bound =>
          (goto c AtCommit,
           Conn (match table s !! username c with
                 | Some _ => <[username c := bound]> (table s)
                 | None => table s
                 end) [])
      end
  | AtWrite None =>
      (* INSERT INTO scores (github_username, points) VALUES (?, ?) *)
      match bind_points (points_to_add c) with
      | Raise x => (goto c (Failed x), Conn (table s) [])
      | Ret bound =>
          match table s !! username c with
          | Some _ => (goto c (Failed IntegrityError), Conn (table s) [])
          | None => (goto c AtCommit, Conn (<[username c := bound]> (table s)) [])
          end
      end
  | AtCommit => (goto c AtPrint, s)
  | AtPrint => (goto c Finished, s)
  | Finished => (c, s)
  | Failed _ => (c, s)
  end.

(** The call numbered [i] makes one step. *)
Definition step_at (i : nat) (cs : list call) (s : conn) : list call * conn :=
  match cs !! i with
  | Some c => let '(c', s') := step c s in (<[i := c']> cs, s')
  | None => (cs, s)
  end.

Fixpoint run_schedule (sched : list nat) (cs : list call) (s : conn) : list call * conn :=
  match sched with
  | [] => (cs, s)
  | i :: sched' => let '(cs', s') := step_at i cs s in run_schedule sched' cs' s'
  end.

(** The statements of one call, from its first to its last. *)
Definition statements : nat := 5.

(** The schedule in which the calls run one after another, in the order
    [order]: each call makes all its steps before the next one starts. *)
Definition one_after_another (order : list nat) : list nat :=
  flat_map (replicate statements) order.

End Threads.

(** ** The vocabulary of the specification *)

(** A request is authenticated when its header carries the signature of its
    body under the secret. *)
Definition authentic (e : env) (rq : request) : Prop :=
  signature_header rq = Some (expected_signature (secret_key e) (data rq)).

(** A merge event (the specification's MergeEvent): the author, number, title
    and address of a closed and merged pull request, and its description when
    it has one. *)
Record merge_event := MergeEvent {
  author_identity : str;
  pr_number : json;
  title : json;
  url : json;
  body : option str
}.

(** The payload [data] carries the merge event [ev]. *)
Definition carries (data : json) (ev : merge_event) : Prop :=
  dict_get data (u "action") JNull = Ret (JStr (u "closed")) ∧
  ∃ pr merged user,
    getitem data (u "pull_request") = Ret pr ∧
    getitem pr (u "merged") = Ret merged ∧ truthy merged = true ∧
    getitem pr (u "user") = Ret user ∧
    getitem user (u "login") = Ret (JStr (author_identity ev)) ∧
    getitem pr (u "number") = Ret (pr_number ev) ∧
    getitem pr (u "title") = Ret (title ev) ∧
    getitem pr (u "html_url") = Ret (url ev) ∧
    dict_get pr (u "body") JNull
    = Ret (match body ev with Some text => JStr text | None => JNull end).

(** [w] is the word [kw] up to the case of its letters. *)
Definition same_ignoring_case (kw w : str) : Prop :=
  Forall2 (fun p c => c ∈ Re.ignorecase_variants p) kw w.

(** A letter of a keyword read without regard to case, written out letter
    by letter: the letter itself, its capital, and the three letters beyond
    ASCII that Unicode folds to one of the keywords' letters (the dotted
    capital and the dotless small i for i, the long s for s). *)
Definition same_letter (p c : char) : Prop :=
  c = p ∨ c = p - 32 ∨ (p = 105 ∧ (c = 0x130 ∨ c = 0x131)) ∨ (p = 115 ∧ c = 0x17f).

(** [s] starts with a closing reference whose digits are [ds]: a closing
    keyword in any case, one white-space character, a hash sign and the
    digits [ds], all there are. *)
Definition reference_at (isdecimal : char -> bool) (s ds : str) : Prop :=
  ∃ kw w ws rest,
    kw ∈ closing_keywords ∧ same_ignoring_case kw w ∧
    Re.isspace ws = true ∧
    ds ≠ [] ∧ Forall (fun c => isdecimal c = true) ds ∧
    (∀ c rest', rest = c :: rest' → isdecimal c = false) ∧
    s = w ++ ws :: 35 :: ds ++ rest.

(** [ds] are the digits of the first closing reference of [text]. *)
Definition first_reference (isdecimal : char -> bool) (text ds : str) : Prop :=
  ∃ before from_here,
    text = before ++ from_here ∧ reference_at isdecimal from_here ds ∧
    ∀ before' from_there ds',
      text = before' ++ from_there → (length before' < length before)%nat →
      ¬ reference_at isdecimal from_there ds'.

(** [text] has no closing reference anywhere. *)
Definition no_reference (isdecimal : char -> bool) (text : str) : Prop :=
  ∀ before from_here ds, text = before ++ from_here → ¬ reference_at isdecimal from_here ds.

(** A delivery that is authenticated and carries the merge event [ev]. *)
Definition merged_delivery (e : env) (rq : request) (ev : merge_event) : Prop :=
  authentic e rq ∧ ∃ data, json_body rq = Parsed data ∧ carries data ev.

(** The words of a text: its longest runs of ASCII letters, digits and
    underscores. *)
Definition is_word_char (c : char) : bool :=
  Re.is_lower c || Re.is_upper c || ((48 <=? c) && (c <=? 57)) || (c =? 95).

Fixpoint words_from (s cur : str) : list str :=
  match s with
  | [] => match cur with [] => [] | _ => [cur] end
  | c :: s' =>
      if is_word_char c then words_from s' (cur ++ [c])
      else match cur with
           | [] => words_from s' []
           | _ => cur :: words_from s' []
           end
  end.

Definition standalone_words (s : str) : list str := words_from s [].

(** [w] is one of the closing keywords, in any case. *)
Definition is_closing_keyword (w : str) : Prop :=
  ∃ kw, kw ∈ closing_keywords ∧ same_ignoring_case kw w.

(** ** Concrete deployments, requests and payloads *)

Definition quote : char := 34.

(** A pull-request event as GitHub sends it, with the given action, merged
    flag and description. *)
Definition pull_request_event (action : str) (merged : bool) (body : json) : json :=
  JDict [(u "action", JStr action);
         (u "pull_request",
          JDict [(u "merged", JBool merged);
                 (u "user", JDict [(u "login", JStr (u "octocat"))]);
                 (u "number", JInt 7);
                 (u "title", JStr (u "Add parser"));
                 (u "html_url", JStr (u "https://github.com/o/r/pull/7"));
                 (u "body", body)])].

(** An issue as the API describes it, with the given label names. *)
Definition issue_with_labels (names : list str) : json :=
  JDict [(u "labels", JList (map (fun n => JDict [(u "name", JStr n)]) names))].

(** A service that knows issue 42, with the given labels, and no other. *)
Definition service_42 (names : list str) (url : str) : fetch :=
  if bool_decide (url = issue_url 42)
  then Responded 200 (Some (issue_with_labels names))
  else Responded 404 None.

Definition unreachable_service (url : str) : fetch := ConnectionFailed.

Definition deployment (service : str -> fetch) : env :=
  Env (u "s3cr3t") service true basic_latin_decimal basic_latin_lower.

(** The text of a JSON value, as compact as GitHub sends it (for strings
    without characters to escape). *)
Fixpoint json_text (v : json) : str :=
  match v with
  | JNull => u "null"
  | JBool true => u "true"
  | JBool false => u "false"
  | JInt z => str_of_int z
  | JStr s => [quote] ++ s ++ [quote]
  | JList l =>
      u "[" ++
      (fix items (l : list json) : str :=
         match l with
         | [] => []
         | [x] => json_text x
         | x :: l' => json_text x ++ u "," ++ items l'
         end) l
      ++ u "]"
  | JDict d =>
      u "{" ++
      (fix members (d : list (str * json)) : str :=
         match d with
         | [] => []
         | [(k, x)] => [quote] ++ k ++ [quote] ++ u ":" ++ json_text x
         | (k, x) :: d' =>
             [quote] ++ k ++ [quote] ++ u ":" ++ json_text x ++ u "," ++ members d'
         end) d
      ++ u "}"
  end.

(** A delivery of [payload], signed with the secret of [deployment]. *)
Definition delivery (payload : json) : request :=
  Request (Some (expected_signature (u "s3cr3t") (json_text payload)))
    (json_text payload) (Parsed payload).

(** The merge event [pull_request_event (u "closed") true] carries. *)
Definition octocat_event (body : option str) : merge_event :=
  MergeEvent (u "octocat") (JInt 7) (JStr (u "Add parser"))
    (JStr (u "https://github.com/o/r/pull/7")) body.

(** [{"action":"closed"}]: a closed event with nothing else. *)
(** A description whose reference has one digit more than [int] converts. *)
Definition reference_4301_digits : str := u "Fixes #" ++ replicate 4301 49.

Definition closed_only : json := JDict [(u "action", JStr (u "closed"))].

(** The event GitHub sends when an issue is closed: the same action, an
    [issue] object and no [pull_request]. *)
Definition issue_closed_event : json :=
  JDict [(u "action", JStr (u "closed"));
         (u "issue", JDict [(u "number", JInt 42); (u "state", JStr (u "closed"))])].

(** ** Reading the pattern by hand

    Functions that compute directly what the pattern at bot.py:134 asks for;
    the theorems relate them to the matcher and to the specification. *)

(** What is left of [s] after the word [kw], its letters in any case. *)
Fixpoint strip_word (kw s : str) : option str :=
  match kw, s with
  | [], _ => Some s
  | p :: kw', c :: s' => if Re.lit_matches true p c then strip_word kw' s' else None
  | _ :: _, [] => None
  end.

(** The longest prefix of [s] made of characters of [p], and the rest. *)
Fixpoint leading (p : char -> bool) (s : str) : str :=
  match s with
  | c :: s' => if p c then c :: leading p s' else []
  | [] => []
  end.

Fixpoint trailing (p : char -> bool) (s : str) : str :=
  match s with
  | c :: s' => if p c then trailing p s' else s
  | [] => []
  end.

(** The digits of a white-space character, a hash sign and digits at the head
    of [s]. *)
Definition reference_digits (isdec : char -> bool) (s : str) : option str :=
  match s with
  | ws :: h :: d :: rest =>
      if Re.isspace ws && (h =? 35) && isdec d
      then Some (d :: leading isdec rest)
      else None
  | _ => None
  end.

Fixpoint first_some {A} (l : list (option A)) : option A :=
  match l with
  | [] => None
  | Some a :: _ => Some a
  | None :: l' => first_some l'
  end.

(** The digits of a closing reference at the head of [s]. *)
Definition reference_here (isdec : char -> bool) (s : str) : option str :=
  first_some (map (fun kw => strip_word kw s ≫= reference_digits isdec) closing_keywords).

(** The announcements handed to the chat loop so far. *)
Definition is_send (ev : event) : bool :=
  match ev with
  | ChannelSend _ _ _ _ => true
  | _ => false
  end.

Definition sends (w : world) : list event := filter (fun ev => is_send ev = true) (trace w).

(** A computation that writes no score and announces nothing, whatever it
    returns; and one that has done neither when it raises. *)
Definition quiet {A} (m : M A) : Prop :=
  ∀ w r w', m w = (r, w') → scores w' = scores w ∧ sends w' = sends w.

Definition safe {A} (m : M A) : Prop :=
  ∀ w x w', m w = (Raise x, w') → scores w' = scores w ∧ sends w' = sends w.

(** What the resolver prints when the fetch is not answered with 200
    (bot.py:69-73). *)
Definition fetch_error_prints (issue_number status : Z) : list event :=
  [Print DebugInfo; Print (ErrorFetching issue_number status);
   Print (UrlTried (issue_url issue_number)); Print (DoubleCheck issue_number);
   Print EndDebugInfo].

(** The table after a call that ran alone, and the sum of some deltas. *)
Definition accumulate (t : gmap str Z) (username : str) (points_to_add : Z)
    : gmap str Z :=
  <[username := (default 0 (t !! username) + points_to_add)%Z]> t.

Definition total (deltas : list Z) : Z := foldr Z.add 0%Z deltas.

(** [n] steps of one call. *)
Fixpoint steps (n : nat) (c : Threads.call) (s : Threads.conn)
    : Threads.call * Threads.conn :=
  match n with
  | O => (c, s)
  | S n' => let '(c', s') := Threads.step c s in steps n' c' s'
  end.

(** What one delivery may do to the world: leave the ledger and the
    announcements as they are, or make one award: one record gains 5, 10 or
    20 points, and the announcement of it is dispatched when the channel is
    found. *)
Definition untouched (w w' : world) : Prop :=
  scores w' = scores w ∧ sends w' = sends w.

Definition awarded (e : env) (w w' : world) : Prop :=
  ∃ name points pr_title pr_url,
    points ∈ [5; 10; 20]%Z ∧
    scores w' = accumulate (scores w) name points ∧
    sends w' = sends w ++ (if channel_found e
                           then [ChannelSend pr_title pr_url name points]
                           else []).

Definition at_most_one_award (e : env) (m : M response) : Prop :=
  ∀ w r w', m w = (r, w') →
    (untouched w w' ∧ ∀ x, r = Ret x → x = no_content)
    ∨ (r = Ret no_content ∧ awarded e w w').

(** * Theorems *)

(** ** Test vectors of the hash functions *)

Example sha256_abc :
  hex (Sha256.digest (u "abc"))
  = u "ba7816bf8f01cfea414140de5dae2223b00361a396177a9cb410ff61f20015ad".
Proof. vm_compute. reflexivity. Qed.

Example sha256_empty :
  hex (Sha256.digest [])
  = u "e3b0c44298fc1c149afbf4c8996fb92427ae41e4649b934ca495991b7852b855".
Proof. vm_compute. reflexivity. Qed.

Example hmac_rfc4231_case2 :
  hex (Hmac.digest (u "Jefe") (u "what do ya want for nothing?"))
  = u "5bdcc146bf60754e6a042426089575c75a003f089d2739839dec58b964ec3843".
Proof. vm_compute. reflexivity. Qed.

Example hmac_long_key :
  hex (Hmac.digest (replicate 100 107) (replicate 130 109))
  = u "83aa675dc7494edede3012008691209d2d943d406b11343c97f3346279260da1".
Proof. vm_compute. reflexivity. Qed.

(** ** Ledger and label policy *)

Lemma bind_run {A B} (m : M A) (f : A → M B) (w : world) :
  (m ≫= f) w = match m w with (Ret a, w') => f a w' | (Raise x, w') => (Raise x, w') end.
Proof. reflexivity. Qed.

Lemma bind_points_fits (points : Z) :
  (points ≤ sqlite_max_integer)%Z → bind_points points = Ret points.
Proof. intros H. unfold bind_points. by rewrite (proj2 (Z.ltb_ge _ _) H). Qed.

Lemma bind_points_overflow (points : Z) :
  (sqlite_max_integer < points)%Z → bind_points points = Raise OverflowError.
Proof. intros H. unfold bind_points. by rewrite (proj2 (Z.ltb_lt _ _) H). Qed.

Lemma update_score_run (username : str) (points_to_add : Z) (w : world) :
  (default 0 (scores w !! username) + points_to_add ≤ sqlite_max_integer)%Z →
  update_score username points_to_add w =
  (Ret tt,
   World (<[username := (default 0 (scores w !! username) + points_to_add)%Z]> (scores w))
         (trace w ++ [Print (UpdatedScore username points_to_add)])).
Proof.
  intros H. unfold update_score. rewrite !bind_run. cbn [get_scores].
  destruct (scores w !! username) as [p|] eqn:E; cbn [default from_option id] in H |- *;
    rewrite bind_run; unfold lift; rewrite bind_points_fits by lia; reflexivity.
Qed.

Lemma update_score_overflow (username : str) (points_to_add : Z) (w : world) :
  (sqlite_max_integer < default 0 (scores w !! username) + points_to_add)%Z →
  update_score username points_to_add w = (Raise OverflowError, w).
Proof.
  intros H. unfold update_score. rewrite !bind_run. cbn [get_scores].
  destruct (scores w !! username) as [p|] eqn:E; cbn [default from_option id] in H |- *;
    rewrite bind_run; unfold lift; rewrite bind_points_overflow by lia; reflexivity.
Qed.

Lemma update_score_cases (username : str) (points_to_add : Z) (w : world) :
  update_score username points_to_add w
  = (Ret tt,
     World (<[username := (default 0 (scores w !! username) + points_to_add)%Z]> (scores w))
           (trace w ++ [Print (UpdatedScore username points_to_add)]))
  ∨ update_score username points_to_add w = (Raise OverflowError, w).
Proof.
  destruct (Z_le_gt_dec (default 0 (scores w !! username) + points_to_add)%Z
              sqlite_max_integer) as [H|H].
  - left. by apply update_score_run.
  - right. apply update_score_overflow. lia.
Qed.

(** C1. For every set of labels the policy returns one of 0, 5, 10 and 20,
    by precedence: 20 when the set holds "hard", whatever else it holds;
    otherwise 10 when it holds "medium"; otherwise 5 when it holds "easy";
    otherwise 0.  A set with both "hard" and "easy" gives 20, not 25. *)
Theorem label_points_precedence (labels : gset str) :
  label_points labels ∈ [0; 5; 10; 20]%Z ∧
  (u "hard" ∈ labels → label_points labels = 20%Z) ∧
  (u "hard" ∉ labels → u "medium" ∈ labels → label_points labels = 10%Z) ∧
  (u "hard" ∉ labels → u "medium" ∉ labels → u "easy" ∈ labels →
     label_points labels = 5%Z) ∧
  (u "hard" ∉ labels → u "medium" ∉ labels → u "easy" ∉ labels →
     label_points labels = 0%Z) ∧
  label_points {[u "hard"; u "easy"]} = 20%Z.
Proof.
  unfold label_points. repeat apply conj.
  - repeat case_decide; set_solver.
  - intros. repeat case_decide; done.
  - intros. repeat case_decide; done.
  - intros. repeat case_decide; done.
  - intros. repeat case_decide; done.
  - case_decide as H; [done|]. exfalso. apply H. set_solver.
Qed.

(** C5. For every identity and all positive a and b that the record can
    take (the table stores 64-bit integers: the record is no smaller than
    -2^63, and with a and b added it stays below 2^63), [update_score] with a
    and then with b leaves the ledger as one call with a + b does, and each of
    the calls runs to its end.  A call creates the record with the delta as
    its points when there is none, adds the delta to its points otherwise,
    and touches no other record. *)
Theorem accumulate_twice (identity : str) (a b : Z) (w : world) :
  (0 < a)%Z → (0 < b)%Z →
  (- 2 ^ 63 ≤ default 0 (scores w !! identity))%Z →
  (default 0 (scores w !! identity) + a + b < 2 ^ 63)%Z →
  fst ((update_score identity a;; update_score identity b) w) = Ret tt
  ∧ fst (update_score identity (a + b) w) = Ret tt
  ∧ scores (snd ((update_score identity a;; update_score identity b) w))
    = scores (snd (update_score identity (a + b) w))
  ∧ scores (snd (update_score identity a w)) !! identity
    = Some (match scores w !! identity with
            | None => a
            | Some points => (points + a)%Z
            end)
  ∧ (∀ other, other ≠ identity →
       scores (snd (update_score identity a w)) !! other = scores w !! other).
Proof.
  intros Ha Hb _ Hmax. change (2 ^ 63)%Z with (sqlite_max_integer + 1)%Z in Hmax.
  rewrite bind_run, (update_score_run identity a w) by lia.
  rewrite (update_score_run identity (a + b) w) by lia.
  rewrite update_score_run by (cbn [scores]; rewrite lookup_insert_eq; cbn; lia).
  cbn [scores fst snd trace]. repeat apply conj; [done|done| | |].
  - rewrite lookup_insert_eq. cbn. rewrite insert_insert_eq. f_equal. lia.
  - rewrite lookup_insert_eq. destruct (scores w !! identity); cbn; f_equal; lia.
  - intros other Hne. by rewrite lookup_insert_ne.
Qed.

Lemma accumulate_twice_witness :
  fst ((update_score (u "octocat") 5;; update_score (u "octocat") 10) (World ∅ [])) = Ret tt
  ∧ fst (update_score (u "octocat") (5 + 10) (World ∅ [])) = Ret tt
  ∧ scores (snd ((update_score (u "octocat") 5;; update_score (u "octocat") 10)
                   (World ∅ [])))
    = scores (snd (update_score (u "octocat") (5 + 10) (World ∅ [])))
  ∧ scores (snd (update_score (u "octocat") 5 (World ∅ []))) !! u "octocat"
    = Some (match scores (World ∅ []) !! u "octocat" with
            | None => 5
            | Some points => (points + 5)
            end)%Z
  ∧ (∀ other, other ≠ u "octocat" →
       scores (snd (update_score (u "octocat") 5 (World ∅ []))) !! other
       = scores (World ∅ []) !! other).
Proof.
  apply (accumulate_twice (u "octocat") 5 10 (World ∅ [])); [lia|lia|done|done].
Defined.

(** C5, as the claim has it, fails where the points leave the integers of the
    table: on an empty ledger two calls with 2^62 record the first and end in
    the [OverflowError] of the second, while one call with 2^62 + 2^62 ends in
    that error with nothing recorded. *)
Lemma accumulate_beyond_the_table :
  (update_score (u "octocat") (2 ^ 62);; update_score (u "octocat") (2 ^ 62)) (World ∅ [])
  = (Raise OverflowError,
     World {[u "octocat" := (2 ^ 62)%Z]} [Print (UpdatedScore (u "octocat") (2 ^ 62))])
  ∧ update_score (u "octocat") (2 ^ 62 + 2 ^ 62) (World ∅ []) = (Raise OverflowError, World ∅ [])
  ∧ scores (snd ((update_score (u "octocat") (2 ^ 62);; update_score (u "octocat") (2 ^ 62))
                   (World ∅ []))) !! u "octocat" = Some (2 ^ 62)%Z
  ∧ scores (snd (update_score (u "octocat") (2 ^ 62 + 2 ^ 62) (World ∅ []))) !! u "octocat"
    = None.
Proof. repeat apply conj; vm_compute; reflexivity. Qed.

(** ** Leaderboard *)

Lemma sorted_rows_perm (db : gmap str Z) :
  merge_sort points_desc (map_to_list db) ≡ₚ map_to_list db.
Proof. apply merge_sort_Permutation. Qed.

Lemma select_top_sorted (n : nat) (db : gmap str Z) :
  StronglySorted points_desc (select_top n db).
Proof.
  unfold select_top.
  apply (StronglySorted_app_1_l _ _ (drop n (merge_sort points_desc (map_to_list db)))).
  rewrite take_drop. apply StronglySorted_merge_sort; apply _.
Qed.

Lemma strongly_sorted_lookup {A} (R : relation A) (l : list A) (i j : nat) (x y : A) :
  StronglySorted R l → (i < j)%nat → l !! i = Some x → l !! j = Some y → R x y.
Proof.
  intros Hs. revert i j. induction Hs as [|a l Hs IH Hall]; intros i j Hij Hi Hj.
  - done.
  - destruct j as [|j]; [lia|]. cbn in Hj. destruct i as [|i]; cbn in Hi.
    + inversion Hi; subst. rewrite Forall_forall in Hall. apply Hall.
      by apply list_elem_of_lookup_2 in Hj.
    + apply (IH i j); [lia|done..].
Qed.

Lemma select_top_empty (n : nat) (db : gmap str Z) :
  select_top (S n) db = [] ↔ db = ∅.
Proof.
  unfold select_top. split.
  - intros H. apply map_to_list_empty_iff. apply Permutation_nil_r.
    rewrite <- sorted_rows_perm.
    destruct (merge_sort points_desc (map_to_list db)); [done|discriminate].
  - intros ->. rewrite map_to_list_empty. reflexivity.
Qed.

(** C6. For every ledger and every limit n, the query returns at most n
    records (as many as the ledger has, up to n), in non-increasing order of
    points, each of them a record of the ledger and no identity twice; the
    command does not change the ledger; on an empty ledger it sends the text
    saying so, and an embed otherwise. *)
Theorem leaderboard_top_n (n : nat) (w : world) :
  let results := select_top n (scores w) in
  (length results ≤ n)%nat
  ∧ length results = (n `min` size (scores w))%nat
  ∧ (∀ (i j : nat) r1 r2, (i < j)%nat → results !! i = Some r1 → results !! j = Some r2 →
       (r2.2 ≤ r1.2)%Z)
  ∧ (∀ identity points, (identity, points) ∈ results →
       scores w !! identity = Some points)
  ∧ NoDup results.*1
  ∧ scores (snd (show_leaderboard w)) = scores w
  ∧ (scores w = ∅ →
       show_leaderboard w
       = (Ret tt, World (scores w) (trace w ++ [CtxSend (Text empty_message)])))
  ∧ (scores w ≠ ∅ → ∃ description,
       show_leaderboard w
       = (Ret tt, World (scores w) (trace w ++ [CtxSend (Embed leaderboard_title description)]))).
Proof.
  cbv zeta. repeat apply conj.
  - unfold select_top. rewrite length_take. lia.
  - unfold select_top. rewrite length_take, sorted_rows_perm, length_map_to_list. done.
  - intros i j r1 r2 Hij H1 H2.
    exact (strongly_sorted_lookup _ _ _ _ _ _ (select_top_sorted n (scores w)) Hij H1 H2).
  - intros identity points Hin. apply elem_of_map_to_list.
    rewrite <- sorted_rows_perm. unfold select_top in Hin.
    by apply subseteq_take in Hin.
  - unfold select_top. rewrite fmap_take. eapply sublist_NoDup; [|apply sublist_take].
    rewrite sorted_rows_perm. apply NoDup_fst_map_to_list.
  - unfold show_leaderboard. rewrite bind_run. cbn.
    destruct (select_top 10 (scores w)); reflexivity.
  - intros He. unfold show_leaderboard. rewrite bind_run. cbn.
    assert (select_top 10 (scores w) = []) as -> by by apply select_top_empty.
    reflexivity.
  - intros Hne. unfold show_leaderboard. rewrite bind_run. cbn.
    destruct (select_top 10 (scores w)) as [|r rs] eqn:E.
    + by apply select_top_empty in E.
    + eexists. reflexivity.
Qed.

(** ** The matcher on the issue pattern *)

Section Matcher.
Variable isdec : char -> bool.

Lemma exec_literal {A} (kw s : str) (caps : list str) (k : str → list str → option A) :
  Re.exec true isdec (Re.literal kw) s caps k
  = match strip_word kw s with Some s' => k s' caps | None => None end.
Proof.
  revert s. induction kw as [|p kw IH]; intros s; [done|].
  cbn [Re.literal Re.exec strip_word].
  destruct s as [|c s]; [done|]. destruct (Re.lit_matches true p c); [apply IH|done].
Qed.

Lemma exec_any_of {A} (r : Re.regex) (rs : list Re.regex) (s : str) (caps : list str)
    (k : str → list str → option A) :
  Re.exec true isdec (Re.any_of r rs) s caps k
  = first_some (map (fun r' => Re.exec true isdec r' s caps k) (r :: rs)).
Proof.
  revert r. induction rs as [|r' rs IH]; intros r; cbn [Re.any_of map first_some].
  - by destruct (Re.exec true isdec r s caps k).
  - cbn [Re.exec]. destruct (Re.exec true isdec r s caps k); [done|]. apply IH.
Qed.

Lemma exec_words {A} (kws : list str) (s : str) (caps : list str)
    (k : str → list str → option A) :
  kws ≠ [] →
  Re.exec true isdec (Re.words kws) s caps k
  = first_some (map (fun kw => match strip_word kw s with
                               | Some s' => k s' caps
                               | None => None
                               end) kws).
Proof.
  destruct kws as [|kw kws]; [done|]. intros _. unfold Re.words.
  rewrite exec_any_of. cbn [map]. rewrite exec_literal. do 2 f_equal.
  rewrite map_map. apply map_ext. intros kw'. apply exec_literal.
Qed.

Lemma leading_trailing (p : char → bool) (s : str) : leading p s ++ trailing p s = s.
Proof. induction s as [|c s IH]; cbn; [done|]. destruct (p c); cbn; by rewrite ?IH. Qed.

Lemma repeat0_total {A} (p : char → bool) (s : str) (k : str → option A) :
  (∀ s', is_Some (k s')) → Re.repeat0 p s k = k (trailing p s).
Proof.
  intros Hk. induction s as [|c s IH]; cbn; [done|].
  destruct (p c); [|done]. rewrite IH. by destruct (Hk (trailing p s)) as [a ->].
Qed.

Lemma take_leading (p : char → bool) (d : char) (s : str) :
  take (S (length s) - length (trailing p s)) (d :: s) = d :: leading p s.
Proof.
  assert (length s = length (leading p s) + length (trailing p s))%nat as Hlen
    by (by rewrite <- length_app, leading_trailing).
  replace (S (length s) - length (trailing p s))%nat
    with (S (length (leading p s))) by lia.
  cbn [take]. f_equal. rewrite <- (leading_trailing p s) at 2. apply take_app_length.
Qed.

Lemma exec_tail (s : str) (caps : list str) :
  Re.exec true isdec
    (Re.Seq (Re.Class Re.Space) (Re.Seq (Re.Lit 35) (Re.Group (Re.Repeat1 Re.Digit))))
    s caps (fun _ caps' => Some caps')
  = (fun ds => caps ++ [ds]) <$> reference_digits isdec s.
Proof.
  destruct s as [|ws [|h [|d rest]]]; cbn.
  - done.
  - by destruct (Re.isspace ws).
  - destruct (Re.isspace ws); [|done]. cbn. unfold Re.lit_matches. cbn.
    rewrite orb_false_r. by destruct (h =? 35).
  - destruct (Re.isspace ws); [|done]. cbn. unfold Re.lit_matches. cbn.
    rewrite orb_false_r. destruct (h =? 35); [|done]. cbn.
    destruct (isdec d); [|done]. cbn.
    rewrite repeat0_total by eauto. by rewrite take_leading.
Qed.

Lemma exec_seq {A} (r1 r2 : Re.regex) (s : str) (caps : list str)
    (k : str → list str → option A) :
  Re.exec true isdec (Re.Seq r1 r2) s caps k
  = Re.exec true isdec r1 s caps (fun s' caps' => Re.exec true isdec r2 s' caps' k).
Proof. reflexivity. Qed.

Lemma exec_issue_pattern (s : str) :
  Re.exec true isdec issue_pattern s [] (fun _ caps => Some caps)
  = (fun ds => [ds]) <$> reference_here isdec s.
Proof.
  unfold issue_pattern, reference_here. rewrite exec_seq.
  rewrite exec_words by done.
  induction closing_keywords as [|kw kws IH]; cbn [map first_some]; [done|].
  destruct (strip_word kw s) as [s'|]; cbn [mbind option_bind].
  - rewrite exec_tail. destruct (reference_digits isdec s'); cbn; [done|apply IH].
  - apply IH.
Qed.
End Matcher.

Lemma lit_matches_variants (p c : char) :
  Re.lit_matches true p c = true ↔ c ∈ Re.ignorecase_variants p.
Proof.
  unfold Re.lit_matches. rewrite existsb_exists. split.
  - intros (x & Hin & Heq). apply N.eqb_eq in Heq. subst. by apply list_elem_of_In.
  - intros Hin. exists c. split; [by apply list_elem_of_In|apply N.eqb_refl].
Qed.

Lemma strip_word_spec (kw s s' : str) :
  strip_word kw s = Some s' ↔ ∃ w, s = w ++ s' ∧ same_ignoring_case kw w.
Proof.
  unfold same_ignoring_case. revert s. induction kw as [|p kw IH]; intros s; cbn [strip_word].
  - split.
    + intros [= ->]. exists []. split; [done|constructor].
    + intros (w & -> & Hw). by inversion Hw.
  - destruct s as [|c s].
    + split; [done|]. intros (w & Hs & Hw). inversion Hw; subst. discriminate.
    + destruct (Re.lit_matches true p c) eqn:Hm.
      * rewrite IH. apply lit_matches_variants in Hm. split.
        -- intros (w & -> & Hw). exists (c :: w). split; [done|by constructor].
        -- intros (w & Hs & Hw). inversion Hw as [|? c' ? w' Hc Hw']; subst.
           injection Hs as <- ->. by exists w'.
      * split; [done|]. intros (w & Hs & Hw).
        inversion Hw as [|? c' ? w' Hc Hw']; subst. injection Hs as <- ->.
        apply lit_matches_variants in Hc. congruence.
Qed.

Lemma strip_word_drop (kw s s' : str) :
  strip_word kw s = Some s' → s' = drop (length kw) s ∧ (length kw ≤ length s)%nat.
Proof.
  intros (w & -> & Hw)%strip_word_spec. apply Forall2_length in Hw. rewrite Hw.
  rewrite drop_app_length, length_app. split; [done|lia].
Qed.

Lemma strip_word_lookup (kw s s' : str) (i : nat) (p : char) :
  strip_word kw s = Some s' → kw !! i = Some p →
  ∃ c, s !! i = Some c ∧ Re.lit_matches true p c = true.
Proof.
  intros (w & -> & Hw)%strip_word_spec Hp.
  destruct (Forall2_lookup_l _ _ _ _ _ Hw Hp) as (c & Hc & Hpc).
  exists c. split; [by apply lookup_app_l_Some|by apply lit_matches_variants].
Qed.

Section Digits.
Variable isdec : char -> bool.

Lemma leading_Forall (s : str) : Forall (fun c => isdec c = true) (leading isdec s).
Proof.
  induction s as [|c s IH]; cbn; [constructor|].
  destruct (isdec c) eqn:E; by constructor.
Qed.

Lemma trailing_head (s : str) (c : char) (rest : str) :
  trailing isdec s = c :: rest → isdec c = false.
Proof.
  induction s as [|c' s IH]; cbn; [done|].
  destruct (isdec c') eqn:E; [done|]. by intros [= <- _].
Qed.

Lemma leading_unique (ds rest : str) :
  Forall (fun c => isdec c = true) ds →
  (∀ c rest', rest = c :: rest' → isdec c = false) →
  leading isdec (ds ++ rest) = ds.
Proof.
  intros Hds Hrest. induction Hds as [|d ds Hd _ IH]; cbn.
  - destruct rest as [|c rest']; [done|]. cbn. by rewrite (Hrest c rest').
  - by rewrite Hd, IH.
Qed.

Lemma reference_digits_spec (s ds : str) :
  reference_digits isdec s = Some ds ↔
  ∃ ws rest,
    Re.isspace ws = true ∧ ds ≠ [] ∧ Forall (fun c => isdec c = true) ds ∧
    (∀ c rest', rest = c :: rest' → isdec c = false) ∧
    s = ws :: 35 :: ds ++ rest.
Proof.
  split.
  - destruct s as [|ws [|h [|d rest]]]; cbn; try done.
    destruct (Re.isspace ws) eqn:Hws; [|done].
    destruct (h =? 35) eqn:Hh; [|done]. destruct (isdec d) eqn:Hd; [|done].
    cbn. intros [= <-]. apply N.eqb_eq in Hh as ->.
    exists ws, (trailing isdec rest). repeat apply conj; [done|done| | |].
    + constructor; [done|apply leading_Forall].
    + intros c rest'. apply trailing_head.
    + cbn. by rewrite leading_trailing.
  - intros (ws & rest & Hws & Hne & Hds & Hrest & ->).
    destruct ds as [|d ds]; [done|]. inversion Hds as [|? ? Hd Hds']; subst.
    cbn. rewrite Hws, Hd. cbn. by rewrite leading_unique.
Qed.

Lemma keyword_letters_not_space (kw : str) (p c : char) :
  kw ∈ closing_keywords → p ∈ kw → Re.lit_matches true p c = true →
  Re.isspace c = false.
Proof.
  assert (forallb (fun kw => forallb (fun p =>
            forallb (fun c => negb (Re.isspace c)) (Re.ignorecase_variants p)) kw)
            closing_keywords = true) as Hall by (vm_compute; reflexivity).
  intros Hkw Hp Hc. rewrite forallb_forall in Hall.
  apply list_elem_of_In, Hall in Hkw. rewrite forallb_forall in Hkw.
  apply list_elem_of_In, Hkw in Hp. rewrite forallb_forall in Hp.
  apply lit_matches_variants, list_elem_of_In, Hp in Hc.
  by apply negb_true_iff in Hc.
Qed.

Lemma keyword_end_unique (kw1 kw2 s s1 s2 ds1 ds2 : str) :
  kw1 ∈ closing_keywords → kw2 ∈ closing_keywords →
  strip_word kw1 s = Some s1 → reference_digits isdec s1 = Some ds1 →
  strip_word kw2 s = Some s2 → reference_digits isdec s2 = Some ds2 →
  (length kw1 ≤ length kw2)%nat → ds1 = ds2.
Proof.
  intros Hk1 Hk2 H1 Hd1 H2 Hd2 Hle.
  destruct (decide (length kw1 = length kw2)) as [Heq|Hne].
  - apply strip_word_drop in H1 as [-> _]. apply strip_word_drop in H2 as [-> _].
    rewrite Heq in Hd1. congruence.
  - exfalso. assert (length kw1 < length kw2)%nat as Hlt by lia.
    destruct (lookup_lt_is_Some_2 kw2 (length kw1) Hlt) as [p Hp].
    destruct (strip_word_lookup _ _ _ _ _ H2 Hp) as (c & Hc & Hm).
    apply (keyword_letters_not_space kw2) in Hm;
      [|done|by eapply list_elem_of_lookup_2].
    apply strip_word_drop in H1 as [-> _].
    apply reference_digits_spec in Hd1 as (ws & rest & Hws & _ & _ & _ & Hs1).
    assert (s !! length kw1 = Some ws) as Hws'.
    { rewrite <- (Nat.add_0_r (length kw1)), <- lookup_drop. by rewrite Hs1. }
    congruence.
Qed.

Lemma first_some_Some {A} (l : list (option A)) (a : A) :
  first_some l = Some a →  Some a ∈ l.
Proof.
  induction l as [|[b|] l IH]; cbn; [done| |].
  - intros [= ->]. left.
  - intros H. right. by apply IH.
Qed.

Lemma first_some_None {A} (l : list (option A)) :
  first_some l = None ↔ Forall (fun o => o = None) l.
Proof.
  induction l as [|[b|] l IH]; cbn.
  - split; [constructor|done].
  - split; [done|]. by inversion 1.
  - rewrite IH. split; [by constructor|by inversion 1].
Qed.

Lemma reference_here_spec (s ds : str) :
  reference_here isdec s = Some ds ↔ reference_at isdec s ds.
Proof.
  unfold reference_here, reference_at. split.
  - intros H%first_some_Some. apply list_elem_of_fmap in H as (kw & Heq & Hkw).
    symmetry in Heq. apply bind_Some in Heq as (s' & Hs' & Hds).
    apply strip_word_spec in Hs' as (w & -> & Hw).
    apply reference_digits_spec in Hds as (ws & rest & Hws & Hne & Hds & Hrest & ->).
    by exists kw, w, ws, rest.
  - intros (kw & w & ws & rest & Hkw & Hw & Hws & Hne & Hds & Hrest & ->).
    assert (strip_word kw (w ++ ws :: 35 :: ds ++ rest) = Some (ws :: 35 :: ds ++ rest))
      as Hstrip by (apply strip_word_spec; eauto).
    assert (reference_digits isdec (ws :: 35 :: ds ++ rest) = Some ds) as Hdig
      by (apply reference_digits_spec; by exists ws, rest).
    destruct (first_some _) as [ds'|] eqn:E.
    + apply first_some_Some, list_elem_of_fmap in E as (kw' & Heq & Hkw').
      symmetry in Heq. apply bind_Some in Heq as (s' & Hs' & Hds').
      f_equal. destruct (decide (length kw' ≤ length kw)%nat).
      * by eapply (keyword_end_unique kw' kw).
      * symmetry. eapply (keyword_end_unique kw kw'); [done..|lia].
    + exfalso. rewrite first_some_None, Forall_forall in E.
      assert (Some ds = None) as Habs; [|done].
      apply E, list_elem_of_fmap. exists kw. split; [|done].
      rewrite Hstrip. symmetry. exact Hdig.
Qed.
End Digits.

Section Search.
Variable isdec : char -> bool.

Lemma search_unfold (s : str) :
  Re.search true isdec issue_pattern s
  = match reference_here isdec s with
    | Some ds => Some [ds]
    | None =>
        match s with
        | [] => None
        | _ :: s' => Re.search true isdec issue_pattern s'
        end
    end.
Proof.
  destruct s; cbn [Re.search]; rewrite exec_issue_pattern;
    by destruct (reference_here isdec _).
Qed.

Lemma search_sound (text : str) (groups : list str) :
  Re.search true isdec issue_pattern text = Some groups →
  ∃ ds, groups = [ds] ∧ first_reference isdec text ds.
Proof.
  induction text as [|c text IH]; rewrite search_unfold.
  - destruct (reference_here isdec []) as [ds|] eqn:E; [|done].
    intros [= <-]. exists ds. split; [done|]. exists [], []. repeat apply conj; [done| |].
    + by apply reference_here_spec.
    + intros ? ? ? _ Hlen. cbn in Hlen. lia.
  - destruct (reference_here isdec (c :: text)) as [ds|] eqn:E.
    + intros [= <-]. exists ds. split; [done|]. exists [], (c :: text).
      repeat apply conj; [done| |].
      * by apply reference_here_spec.
      * intros ? ? ? _ Hlen. cbn in Hlen. lia.
    + intros (ds & -> & before & from_here & -> & Href & Hmin)%IH.
      exists ds. split; [done|]. exists (c :: before), from_here.
      repeat apply conj; [done|done|].
      intros before' from_there ds' Heq Hlen Href'.
      destruct before' as [|c' before'].
      * cbn in Heq. subst from_there. apply reference_here_spec in Href'. congruence.
      * injection Heq as <- Heq. apply (Hmin before' from_there ds'); [done| |done].
        cbn in Hlen. lia.
Qed.

Lemma search_complete (text ds : str) :
  first_reference isdec text ds →
  Re.search true isdec issue_pattern text = Some [ds].
Proof.
  intros (before & from_here & -> & Href & Hmin).
  induction before as [|c before IH]; rewrite search_unfold.
  - cbn [app]. apply reference_here_spec in Href. by rewrite Href.
  - destruct (reference_here isdec ((c :: before) ++ from_here)) as [ds'|] eqn:E.
    + exfalso. apply reference_here_spec in E.
      apply (Hmin [] ((c :: before) ++ from_here) ds'); [done|cbn; lia|done].
    + cbn [app]. apply IH. intros before' from_there ds' Heq Hlen.
      apply (Hmin (c :: before') from_there ds'); [cbn [app]; by f_equal|cbn; lia].
Qed.

Lemma search_first (text : str) (groups : list str) :
  Re.search true isdec issue_pattern text = Some groups ↔
  ∃ ds, groups = [ds] ∧ first_reference isdec text ds.
Proof.
  split; [apply search_sound|]. intros (ds & -> & H). by apply search_complete.
Qed.

Lemma search_none (text : str) :
  Re.search true isdec issue_pattern text = None ↔ no_reference isdec text.
Proof.
  unfold no_reference. split.
  - induction text as [|c text IH]; rewrite search_unfold.
    + destruct (reference_here isdec []) eqn:E; [done|]. intros _ before from_here ds Heq.
      symmetry in Heq. apply app_eq_nil in Heq as [-> ->].
      rewrite <- reference_here_spec. congruence.
    + destruct (reference_here isdec (c :: text)) eqn:E; [done|].
      intros Hs before from_here ds Heq. destruct before as [|c' before].
      * cbn in Heq. subst. rewrite <- reference_here_spec. congruence.
      * injection Heq as -> Heq. by apply (IH Hs before from_here ds).
  - intros Hno. destruct (Re.search true isdec issue_pattern text) as [groups|] eqn:E;
      [|done].
    apply search_sound in E as (ds & _ & before & from_here & -> & Href & _).
    by destruct (Hno before from_here ds).
Qed.
End Search.

Example search_examples :
  Re.search true (fun c => bool_decide (is_Some (basic_latin_decimal c))) issue_pattern (u "Fixes #42 and closes #7") = Some [u "42"].
Proof. reflexivity. Qed.

(** ** The webhook handler *)

#[local] Arguments u : simpl never.
#[local] Arguments eq_str : simpl never.
#[local] Arguments dict_get : simpl never.
#[local] Arguments getitem : simpl never.
#[local] Arguments truthy : simpl never.

Lemma hex_digit_ascii (d : N) : (hex_digit (d mod 16) <? 128) = true.
Proof.
  unfold hex_digit. assert (d mod 16 < 16) by (apply N.mod_upper_bound; lia).
  destruct (d mod 16 <? 10); apply N.ltb_lt; lia.
Qed.

Lemma hex_ascii (bs : bytes) : isascii (hex bs) = true.
Proof.
  unfold isascii, hex. induction bs as [|b bs IH]; [done|].
  cbn [flat_map app forallb]. by rewrite !hex_digit_ascii, IH.
Qed.

Lemma expected_signature_ascii (key body : bytes) :
  isascii (expected_signature key body) = true.
Proof.
  unfold expected_signature, isascii. rewrite forallb_app. apply andb_true_iff.
  split; [reflexivity|apply hex_ascii].
Qed.

Lemma expected_signature_prefix (key body : bytes) :
  startswith (u "sha256=") (expected_signature key body) = true.
Proof. unfold startswith, expected_signature. by apply bool_decide_eq_true. Qed.

Lemma verify_signature_authentic (e : env) (rq : request) (w : world) :
  authentic e rq → verify_signature e rq w = (Ret tt, w).
Proof.
  unfold authentic, verify_signature. intros ->.
  rewrite expected_signature_prefix. cbn [negb orb].
  replace (bool_decide (expected_signature (secret_key e) (data rq) = [])) with false
    by (symmetry; by apply bool_decide_eq_false).
  cbn [orb]. rewrite bind_run. unfold lift, compare_digest.
  rewrite expected_signature_ascii. cbn [andb].
  rewrite bool_decide_eq_true_2 by done. reflexivity.
Qed.

Lemma webhook_authentic (e : env) (rq : request) (w : world) :
  authentic e rq → github_webhook e rq w = process_payload e rq w.
Proof.
  intros H. unfold github_webhook. rewrite bind_run.
  by rewrite verify_signature_authentic.
Qed.

Lemma verify_signature_rejects (e : env) (rq : request) (w : world) :
  ¬ authentic e rq →
  ∃ x, verify_signature e rq w = (Raise x, w)
       ∧ x ∈ [HTTPException 400; HTTPException 403; TypeError].
Proof.
  unfold authentic, verify_signature. intros Hne.
  destruct (signature_header rq) as [signature|]; [|exists (HTTPException 400); split; [done|set_solver]].
  destruct (bool_decide (signature = []) || negb (startswith (u "sha256=") signature));
    [exists (HTTPException 400); split; [done|set_solver]|].
  rewrite bind_run. unfold lift, compare_digest.
  destruct (isascii _ && isascii signature); [|exists TypeError; split; [done|set_solver]].
  rewrite bool_decide_eq_false_2 by congruence.
  exists (HTTPException 403); split; [done|set_solver].
Qed.

Lemma after_after (w : world) (l1 l2 : list event) :
  after (after w l1) l2 = after w (l1 ++ l2).
Proof. unfold after. cbn. by rewrite <- app_assoc. Qed.

Lemma bind_assoc {A B C} (m : M A) (f : A → M B) (g : B → M C) (w : world) :
  ((m ≫= f) ≫= g) w = (m ≫= (fun a => f a ≫= g)) w.
Proof. rewrite !bind_run. destruct (m w) as [[a|x] w']; [by rewrite bind_run|done]. Qed.

Lemma bind_lift_Ret {A B} (a : A) (f : A → M B) (w : world) :
  (lift (Ret a) ≫= f) w = f a w.
Proof. reflexivity. Qed.

Lemma bind_lift_Raise {A B} (x : exn) (f : A → M B) (w : world) :
  (lift (Raise x) ≫= f) w = (Raise x, w).
Proof. reflexivity. Qed.

Lemma bind_raise {A B} (x : exn) (f : A → M B) (w : world) :
  (raise x ≫= f) w = (Raise x, w).
Proof. reflexivity. Qed.

Lemma bind_ret {A B} (a : A) (f : A → M B) (w : world) : (ret a ≫= f) w = f a w.
Proof. reflexivity. Qed.

Lemma bind_emit {B} (ev : event) (f : unit → M B) (w : world) :
  (emit ev ≫= f) w = f tt (after w [ev]).
Proof. reflexivity. Qed.

Lemma bind_print {B} (m : message) (f : unit → M B) (w : world) :
  (print m ≫= f) w = f tt (after w [Print m]).
Proof. reflexivity. Qed.

(** Running a computation one bind at a time: the rewriting database [monad]. *)
Create Rewrite HintDb monad.
#[local] Hint Rewrite @bind_assoc @bind_lift_Ret @bind_lift_Raise @bind_raise @bind_ret
  @bind_emit @bind_print after_after : monad.

Lemma process_not_closed (e : env) (rq : request) (data action : json) (w : world) :
  json_body rq = Parsed data →
  dict_get data (u "action") JNull = Ret action → eq_str action (u "closed") = false →
  process_payload e rq w = (Ret no_content, after w [EvalJson]).
Proof.
  intros Hj Ha Hc. unfold process_payload, get_json. rewrite Hj. autorewrite with monad.
  rewrite Ha. autorewrite with monad. rewrite Hc. autorewrite with monad. reflexivity.
Qed.

Lemma process_not_merged (e : env) (rq : request) (data pr merged : json) (w : world) :
  json_body rq = Parsed data →
  dict_get data (u "action") JNull = Ret (JStr (u "closed")) →
  getitem data (u "pull_request") = Ret pr → getitem pr (u "merged") = Ret merged →
  truthy merged = false →
  process_payload e rq w = (Ret no_content, after w [EvalJson]).
Proof.
  intros Hj Ha Hp Hm Ht. unfold process_payload, get_json. rewrite Hj. autorewrite with monad.
  rewrite Ha. autorewrite with monad. change (eq_str (JStr (u "closed")) (u "closed")) with true.
  cbv iota. autorewrite with monad. rewrite Hp. autorewrite with monad. rewrite Hm. autorewrite with monad. rewrite Ht. reflexivity.
Qed.

Lemma process_merged (e : env) (rq : request) (data : json) (ev : merge_event) (w : world) :
  json_body rq = Parsed data → carries data ev →
  process_payload e rq w
  = link_issue e (JStr (author_identity ev)) (pr_number ev) (title ev) (url ev)
      (JStr (default [] (body ev))) (after w [EvalJson]).
Proof.
  intros Hj (Ha & pr & merged & user & Hp & Hm & Ht & Hu & Hl & Hn & Hti & Hur & Hb).
  unfold process_payload, get_json. rewrite Hj. autorewrite with monad.
  rewrite Ha. autorewrite with monad. change (eq_str (JStr (u "closed")) (u "closed")) with true.
  cbv iota. autorewrite with monad. rewrite Hp. autorewrite with monad. rewrite Hm. autorewrite with monad. rewrite Ht. autorewrite with monad. cbv iota.
  autorewrite with monad. rewrite Hu. autorewrite with monad. rewrite Hl. autorewrite with monad. rewrite Hn. autorewrite with monad.
  rewrite Hti. autorewrite with monad. rewrite Hur. autorewrite with monad. rewrite Hb. autorewrite with monad.
  destruct (body ev) as [[|c text]|]; reflexivity.
Qed.

(** *** The resolver *)

Lemma int_digits_decimal (e : env) (ds : str) (acc : N) :
  Forall (fun c => isdecimal e c = true) ds →
  ∃ n, int_digits (decimal_value e) ds acc = Some n.
Proof.
  intros H. revert acc. induction H as [|c ds Hc _ IH]; intros acc; cbn; [eauto|].
  unfold isdecimal in Hc. apply bool_decide_eq_true in Hc as [d ->]. apply IH.
Qed.

Lemma reference_at_digits (isdec : char → bool) (s ds : str) :
  reference_at isdec s ds → ds ≠ [] ∧ Forall (fun c => isdec c = true) ds.
Proof. intros (? & ? & ? & ? & _ & _ & _ & Hne & Hds & _). done. Qed.

Lemma link_issue_none (e : env) (username number title url : json) (text : str) (w : world) :
  no_reference (isdecimal e) text →
  link_issue e username number title url (JStr text) w
  = (Ret no_content, after w [Print (NoLinkedIssue number)]).
Proof.
  intros H%search_none. unfold link_issue, search_issue. rewrite H. autorewrite with monad. reflexivity.
Qed.

Lemma int_of_str_digits (value : char → option N) (ds : str) (n : N) :
  ds ≠ [] → (length ds ≤ int_max_str_digits)%nat → int_digits value ds 0 = Some n →
  int_of_str value ds = Ret (Z.of_N n).
Proof.
  intros Hne Hlen Hn. unfold int_of_str. destruct ds as [|d ds]; [done|].
  rewrite (proj2 (Nat.ltb_ge _ _) Hlen). by rewrite Hn.
Qed.

Lemma int_of_str_long (value : char → option N) (ds : str) :
  (int_max_str_digits < length ds)%nat → int_of_str value ds = Raise ValueError.
Proof.
  intros Hlen. unfold int_of_str. destruct ds as [|d ds]; [done|].
  by rewrite (proj2 (Nat.ltb_lt _ _) Hlen).
Qed.

Lemma link_issue_first (e : env) (username number title url : json) (text ds : str)
    (w : world) :
  first_reference (isdecimal e) text ds → (length ds ≤ int_max_str_digits)%nat →
  ∃ n, int_digits (decimal_value e) ds 0 = Some n ∧
    link_issue e username number title url (JStr text) w
    = award e username title url (Z.of_N n) w.
Proof.
  intros H Hlen. pose proof H as (_ & from_here & _ & [Hne Hds]%reference_at_digits & _).
  apply search_complete in H. destruct (int_digits_decimal e ds 0 Hds) as [n Hn].
  exists n. split; [done|]. unfold link_issue, search_issue. rewrite H. autorewrite with monad.
  change (default [] (head [ds])) with ds.
  rewrite (int_of_str_digits _ ds n) by done. by autorewrite with monad.
Qed.

Lemma link_issue_long (e : env) (username number title url : json) (text ds : str)
    (w : world) :
  first_reference (isdecimal e) text ds → (int_max_str_digits < length ds)%nat →
  link_issue e username number title url (JStr text) w = (Raise ValueError, w).
Proof.
  intros H Hlen. apply search_complete in H.
  unfold link_issue, search_issue. rewrite H. autorewrite with monad.
  change (default [] (head [ds])) with ds.
  rewrite int_of_str_long by done. by autorewrite with monad.
Qed.

Lemma reference_or_none (isdec : char → bool) (text : str) :
  (∃ ds, first_reference isdec text ds) ∨ no_reference isdec text.
Proof.
  destruct (Re.search true isdec issue_pattern text) as [groups|] eqn:E.
  - left. apply search_sound in E as (ds & _ & H). eauto.
  - right. by apply search_none.
Qed.

Lemma get_points_failed (e : env) (issue_number : Z) (w : world) :
  requests_get e (issue_url issue_number) = ConnectionFailed →
  get_points_from_pr_labels e issue_number w
  = (Raise ConnectionError, after w [HttpGet (issue_url issue_number)]).
Proof.
  intros H. unfold get_points_from_pr_labels. cbv zeta. autorewrite with monad. by rewrite H.
Qed.

Lemma get_points_not_200 (e : env) (issue_number status : Z) (body : option json)
    (w : world) :
  requests_get e (issue_url issue_number) = Responded status body → status ≠ 200%Z →
  get_points_from_pr_labels e issue_number w
  = (Ret 0%Z,
     after w [HttpGet (issue_url issue_number); Print DebugInfo;
              Print (ErrorFetching issue_number status);
              Print (UrlTried (issue_url issue_number));
              Print (DoubleCheck issue_number); Print EndDebugInfo]).
Proof.
  intros H Hs. unfold get_points_from_pr_labels. cbv zeta. autorewrite with monad. rewrite H.
  apply Z.eqb_neq in Hs. rewrite Hs. cbn [negb]. autorewrite with monad. reflexivity.
Qed.

Lemma label_names_named (e : env) (items : list json) (names : list str) :
  Forall2 (fun item name => getitem item (u "name") = Ret (JStr name)) items names →
  label_names e items = Ret (map (str_lower e) names).
Proof.
  induction 1 as [|item name items names H _ IH]; cbn [label_names map]; [done|].
  unfold label_name. by rewrite H, IH.
Qed.

Lemma get_points_200 (e : env) (issue_number : Z) (data : json) (items : list json)
    (names : list str) (w : world) :
  requests_get e (issue_url issue_number) = Responded 200 (Some data) →
  dict_get data (u "labels") (JList []) = Ret (JList items) →
  Forall2 (fun item name => getitem item (u "name") = Ret (JStr name)) items names →
  get_points_from_pr_labels e issue_number w
  = (Ret (label_points (list_to_set (map (str_lower e) names))),
     after w [HttpGet (issue_url issue_number)]).
Proof.
  intros H Hl Hn. unfold get_points_from_pr_labels. cbv zeta. autorewrite with monad. rewrite H.
  cbn [Z.eqb Pos.eqb negb]. autorewrite with monad. rewrite Hl. autorewrite with monad. cbn [iterate]. autorewrite with monad.
  rewrite (label_names_named e items names Hn). autorewrite with monad. reflexivity.
Qed.

Lemma award_zero (e : env) (username title url : json) (issue_number : Z) (w w' : world) :
  get_points_from_pr_labels e issue_number w = (Ret 0%Z, w') →
  award e username title url issue_number w = (Ret no_content, w').
Proof. intros H. unfold award. rewrite bind_run, H. reflexivity. Qed.

Lemma award_raise (e : env) (username title url : json) (issue_number : Z) (x : exn)
    (w w' : world) :
  get_points_from_pr_labels e issue_number w = (Raise x, w') →
  award e username title url issue_number w = (Raise x, w').
Proof. intros H. unfold award. rewrite bind_run, H. reflexivity. Qed.

Lemma award_points (e : env) (username : str) (title url : json) (issue_number points : Z)
    (w w' : world) :
  get_points_from_pr_labels e issue_number w = (Ret points, w') → (0 < points)%Z →
  (default 0 (scores w' !! username) + points ≤ sqlite_max_integer)%Z →
  award e (JStr username) title url issue_number w
  = (Ret no_content,
     World (<[username := (default 0 (scores w' !! username) + points)%Z]> (scores w'))
       (trace w' ++ Print (UpdatedScore username points)
          :: (if channel_found e then [ChannelSend title url username points] else []))).
Proof.
  intros H Hp Hfit. unfold award. rewrite bind_run, H.
  apply Z.ltb_lt in Hp. rewrite Hp. autorewrite with monad. cbn [sql_text]. autorewrite with monad.
  rewrite bind_run, update_score_run by done.
  destruct (channel_found e); autorewrite with monad; unfold ret, mret, M_ret, after; cbn;
    rewrite <- ?app_assoc; reflexivity.
Qed.

Lemma award_overflow (e : env) (username : str) (title url : json)
    (issue_number points : Z) (w w' : world) :
  get_points_from_pr_labels e issue_number w = (Ret points, w') → (0 < points)%Z →
  (sqlite_max_integer < default 0 (scores w' !! username) + points)%Z →
  award e (JStr username) title url issue_number w = (Raise OverflowError, w').
Proof.
  intros H Hp Hover. unfold award. rewrite bind_run, H.
  apply Z.ltb_lt in Hp. rewrite Hp. autorewrite with monad. cbn [sql_text]. autorewrite with monad.
  by rewrite bind_run, update_score_overflow.
Qed.

(** *** Failures leave the ledger alone *)

Lemma quiet_lift {A} (r : res A) : quiet (lift r).
Proof. intros w r' w' [= _ <-]. done. Qed.

Lemma quiet_ret {A} (a : A) : quiet (ret a).
Proof. intros w r' w' [= _ <-]. done. Qed.

Lemma quiet_raise {A} (x : exn) : quiet (raise (A:=A) x).
Proof. intros w r' w' [= _ <-]. done. Qed.

Lemma quiet_emit (ev : event) : is_send ev = false → quiet (emit ev).
Proof.
  intros Hev w r' w' [= _ <-]. split; [done|]. unfold sends. cbn.
  rewrite filter_app, filter_cons_False, filter_nil, app_nil_r by congruence. done.
Qed.

Lemma quiet_bind {A B} (m : M A) (f : A → M B) :
  quiet m → (∀ a, quiet (f a)) → quiet (m ≫= f).
Proof.
  intros Hm Hf w r w'. rewrite bind_run. destruct (m w) as [[a|x] w1] eqn:E.
  - intros H. destruct (Hm _ _ _ E) as [<- <-]. by apply (Hf a _ r).
  - intros [= <- <-]. by apply (Hm _ _ _ E).
Qed.

Lemma quiet_safe {A} (m : M A) : quiet m → safe m.
Proof. intros H w x w'. apply H. Qed.

Lemma safe_bind {A B} (m : M A) (f : A → M B) :
  quiet m → (∀ a, safe (f a)) → safe (m ≫= f).
Proof.
  intros Hm Hf w x w'. rewrite bind_run. destruct (m w) as [[a|y] w1] eqn:E.
  - intros H. destruct (Hm _ _ _ E) as [<- <-]. by apply (Hf a _ x).
  - intros [= <- <-]. by apply (Hm _ _ _ E).
Qed.

Lemma quiet_get_points (e : env) (issue_number : Z) :
  quiet (get_points_from_pr_labels e issue_number).
Proof.
  unfold get_points_from_pr_labels. cbv zeta.
  apply quiet_bind; [by apply quiet_emit|]. intros _.
  destruct (requests_get e _) as [|status body]; [apply quiet_raise|].
  destruct (negb _).
  - repeat (apply quiet_bind; [by apply quiet_emit|]; intros _). apply quiet_ret.
  - repeat (apply quiet_bind; [apply quiet_lift|]; intros ?). apply quiet_ret.
Qed.

Lemma safe_award (e : env) (username title url : json) (issue_number : Z) :
  safe (award e username title url issue_number).
Proof.
  unfold award. apply safe_bind; [apply quiet_get_points|]. intros points.
  destruct (0 <? points)%Z; [|apply quiet_safe, quiet_bind; [apply quiet_ret|intros; apply quiet_ret]].
  destruct username as [| | |name| |]; intros w x w'; cbn [sql_text]; autorewrite with monad;
    try (by intros [= _ <-]).
  rewrite !bind_run. destruct (update_score_cases name points w) as [-> | ->].
  - by destruct (channel_found e).
  - by intros [= _ <-].
Qed.

Lemma safe_link_issue (e : env) (username number title url body : json) :
  safe (link_issue e username number title url body).
Proof.
  unfold link_issue. apply safe_bind; [apply quiet_lift|]. intros [groups|].
  - apply safe_bind; [apply quiet_lift|]. intros n. apply safe_award.
  - apply quiet_safe, quiet_bind; [by apply quiet_emit|]. intros _. apply quiet_ret.
Qed.

Lemma quiet_get_json (rq : request) : quiet (get_json rq).
Proof.
  unfold get_json. apply quiet_bind; [by apply quiet_emit|]. intros _.
  destruct (json_body rq); [apply quiet_ret|apply quiet_raise].
Qed.

Lemma safe_process_payload (e : env) (rq : request) : safe (process_payload e rq).
Proof.
  unfold process_payload. apply safe_bind; [apply quiet_get_json|]. intros data.
  apply safe_bind; [apply quiet_lift|]. intros action.
  apply safe_bind.
  { destruct (eq_str action _); [|apply quiet_ret].
    repeat (apply quiet_bind; [apply quiet_lift|]; intros ?). apply quiet_ret. }
  intros [|]; [|apply quiet_safe, quiet_ret].
  do 7 (apply safe_bind; [apply quiet_lift|]; intros ?). apply safe_link_issue.
Qed.

Lemma quiet_verify_signature (e : env) (rq : request) : quiet (verify_signature e rq).
Proof.
  unfold verify_signature. destruct (signature_header rq) as [signature|];
    [|apply quiet_raise].
  destruct (_ || _); [apply quiet_raise|].
  apply quiet_bind; [apply quiet_lift|]. intros same.
  destruct (negb same); [apply quiet_raise|apply quiet_ret].
Qed.

Lemma safe_github_webhook (e : env) (rq : request) : safe (github_webhook e rq).
Proof.
  unfold github_webhook. apply safe_bind; [apply quiet_verify_signature|].
  intros _. apply safe_process_payload.
Qed.

(** *** Deliveries that carry a merge event *)

Lemma webhook_merged (e : env) (rq : request) (ev : merge_event) (w : world) :
  merged_delivery e rq ev →
  github_webhook e rq w
  = link_issue e (JStr (author_identity ev)) (pr_number ev) (title ev) (url ev)
      (JStr (default [] (body ev))) (after w [EvalJson]).
Proof.
  intros (Ha & data & Hj & Hc). rewrite webhook_authentic by done.
  by apply process_merged with data.
Qed.

Lemma octocat_delivery (service : str → fetch) (text : str) :
  merged_delivery (deployment service)
    (delivery (pull_request_event (u "closed") true (JStr text)))
    (octocat_event (Some text)).
Proof.
  split; [reflexivity|]. eexists. split; [reflexivity|]. split; [reflexivity|].
  eexists _, _, _. repeat apply conj; reflexivity.
Qed.

Lemma webhook_first_reference (e : env) (rq : request) (ev : merge_event) (ds : str)
    (w : world) :
  merged_delivery e rq ev →
  first_reference (isdecimal e) (default [] (body ev)) ds →
  (length ds ≤ int_max_str_digits)%nat →
  ∃ n, int_digits (decimal_value e) ds 0 = Some n ∧ ds ≠ [] ∧
    github_webhook e rq w
    = award e (JStr (author_identity ev)) (title ev) (url ev) (Z.of_N n)
        (after w [EvalJson]).
Proof.
  intros Hd Hds Hlen.
  pose proof Hds as (_ & from_here & _ & [Hne _]%reference_at_digits & _).
  destruct (link_issue_first e (JStr (author_identity ev)) (pr_number ev) (title ev)
              (url ev) _ ds (after w [EvalJson]) Hds Hlen) as (n & Hn & Hl).
  exists n. repeat split; [done..|]. by rewrite (webhook_merged e rq ev w Hd).
Qed.

Lemma webhook_long_reference (e : env) (rq : request) (ev : merge_event) (ds : str)
    (w : world) :
  merged_delivery e rq ev →
  first_reference (isdecimal e) (default [] (body ev)) ds →
  (int_max_str_digits < length ds)%nat →
  github_webhook e rq w = (Raise ValueError, after w [EvalJson]).
Proof.
  intros Hd Hds Hlen. rewrite (webhook_merged e rq ev w Hd).
  by apply link_issue_long with ds.
Qed.

Lemma keyword_letter_variants (p c : char) :
  p ∈ u "closedfixrv" → (c ∈ Re.ignorecase_variants p ↔ same_letter p c).
Proof.
  intros Hp. apply list_elem_of_In in Hp. vm_compute in Hp. unfold same_letter.
  repeat (destruct Hp as [<-|Hp];
          [match goal with
           | |- context [Re.ignorecase_variants ?q] =>
               let v := eval vm_compute in (Re.ignorecase_variants q) in
               change (Re.ignorecase_variants q) with v
           end;
           rewrite ?elem_of_cons, elem_of_nil; lia|]).
  destruct Hp.
Qed.

Lemma keywords_ignoring_case (kw w : str) :
  kw ∈ closing_keywords → (same_ignoring_case kw w ↔ Forall2 same_letter kw w).
Proof.
  intros Hkw.
  assert (Forall (fun p => p ∈ u "closedfixrv") kw) as Hletters.
  { assert (forallb (fun kw => forallb (fun p => existsb (N.eqb p) (u "closedfixrv")) kw)
              closing_keywords = true) as Hall by (vm_compute; reflexivity).
    rewrite forallb_forall in Hall. apply list_elem_of_In, Hall in Hkw.
    rewrite forallb_forall in Hkw. apply Forall_forall. intros p Hp.
    apply list_elem_of_In, Hkw, existsb_exists in Hp as (x & Hx & ->%N.eqb_eq).
    by apply list_elem_of_In. }
  unfold same_ignoring_case. clear Hkw. revert w.
  induction Hletters as [|p kw Hp _ IH]; intros w.
  - split; intros H; inversion H; constructor.
  - split; intros H; inversion H as [|? c ? w' Hc Hw]; subst; constructor;
      try (by apply IH); by apply (keyword_letter_variants p c Hp).
Qed.

Lemma first_reference_computed (isdec : char → bool) (text ds : str) :
  Re.search true isdec issue_pattern text = Some [ds] → first_reference isdec text ds.
Proof. intros (ds' & [= <-] & H)%search_sound. done. Qed.

(** C3 (amended). For every pull-request description, the handler looks for
    the first closing reference: a closing keyword read without regard to case
    (each letter as itself, its capital or a letter Unicode folds to it), one
    white-space character, a hash sign and digits.  Every text either has a
    first reference or has none.  When it has one, the search returns its
    digits; when they are no more than [int] converts (4300), the number they
    write is the issue the handler resolves and scores, and when they are
    more, the conversion raises [ValueError] and the delivery ends in it with
    nothing fetched or scored.  When the text has no reference (a missing or
    null description counts as the empty text) the handler scores nothing,
    prints its notice and answers 204. *)
Theorem issue_reference_extraction (e : env) (rq : request) (ev : merge_event)
    (w : world) :
  merged_delivery e rq ev →
  let text := default [] (body ev) in
  (∀ kw word, kw ∈ closing_keywords →
     (same_ignoring_case kw word ↔ Forall2 same_letter kw word))
  ∧ ((∃ ds, first_reference (isdecimal e) text ds) ∨ no_reference (isdecimal e) text)
  ∧ (∀ ds, first_reference (isdecimal e) text ds →
       Re.search true (isdecimal e) issue_pattern text = Some [ds]
       ∧ ((length ds ≤ int_max_str_digits)%nat →
          ∃ n, int_digits (decimal_value e) ds 0 = Some n ∧
            int_of_str (decimal_value e) ds = Ret (Z.of_N n) ∧
            github_webhook e rq w
            = award e (JStr (author_identity ev)) (title ev) (url ev) (Z.of_N n)
                (after w [EvalJson]))
       ∧ ((int_max_str_digits < length ds)%nat →
          int_of_str (decimal_value e) ds = Raise ValueError
          ∧ github_webhook e rq w = (Raise ValueError, after w [EvalJson])))
  ∧ (no_reference (isdecimal e) text →
       Re.search true (isdecimal e) issue_pattern text = None
       ∧ github_webhook e rq w
         = (Ret no_content,
            after w [EvalJson; Print (NoLinkedIssue (pr_number ev))])).
Proof.
  intros Hd text. repeat apply conj.
  - intros kw word. apply keywords_ignoring_case.
  - apply reference_or_none.
  - intros ds Hds. repeat apply conj; [by apply search_complete| |].
    + intros Hlen.
      destruct (webhook_first_reference e rq ev ds w Hd Hds Hlen) as (n & Hn & Hne & Hweb).
      exists n. repeat apply conj; [done|by apply int_of_str_digits|done].
    + intros Hlen. split; [by apply int_of_str_long|].
      by apply webhook_long_reference with ev ds.
  - intros Hno. split; [by apply search_none|].
    rewrite (webhook_merged e rq ev w Hd). fold text.
    rewrite link_issue_none by done. by rewrite after_after.
Qed.

Lemma issue_reference_extraction_witness :
  let e := deployment (service_42 [u "medium"]) in
  let rq := delivery (pull_request_event (u "closed") true (JStr (u "Relates to #7"))) in
  let ev := octocat_event (Some (u "Relates to #7")) in
  let w := World ∅ [] in
  let text := default [] (body ev) in
  (∀ kw word, kw ∈ closing_keywords →
     (same_ignoring_case kw word ↔ Forall2 same_letter kw word))
  ∧ ((∃ ds, first_reference (isdecimal e) text ds) ∨ no_reference (isdecimal e) text)
  ∧ (∀ ds, first_reference (isdecimal e) text ds →
       Re.search true (isdecimal e) issue_pattern text = Some [ds]
       ∧ ((length ds ≤ int_max_str_digits)%nat →
          ∃ n, int_digits (decimal_value e) ds 0 = Some n ∧
            int_of_str (decimal_value e) ds = Ret (Z.of_N n) ∧
            github_webhook e rq w
            = award e (JStr (author_identity ev)) (title ev) (url ev) (Z.of_N n)
                (after w [EvalJson]))
       ∧ ((int_max_str_digits < length ds)%nat →
          int_of_str (decimal_value e) ds = Raise ValueError
          ∧ github_webhook e rq w = (Raise ValueError, after w [EvalJson])))
  ∧ (no_reference (isdecimal e) text →
       Re.search true (isdecimal e) issue_pattern text = None
       ∧ github_webhook e rq w
         = (Ret no_content,
            after w [EvalJson; Print (NoLinkedIssue (pr_number ev))])).
Proof.
  apply (issue_reference_extraction (deployment (service_42 [u "medium"]))
           (delivery (pull_request_event (u "closed") true (JStr (u "Relates to #7"))))
           (octocat_event (Some (u "Relates to #7"))) (World ∅ [])).
  apply octocat_delivery.
Defined.

Lemma reference_4301_digits_found (service : str → fetch) :
  first_reference (isdecimal (deployment service)) reference_4301_digits
    (replicate 4301 49).
Proof. apply first_reference_computed. vm_compute. reflexivity. Qed.

(** Counterexample to C3 as stated: the first match of "Fixes #" followed by
    4301 digits is found, and its digit group is not taken as an issue number:
    [int] raises [ValueError], nothing catches it, and flask answers 500. *)
Lemma reference_of_4301_digits_raises :
  Re.search true (isdecimal (deployment (service_42 [u "hard"]))) issue_pattern
    reference_4301_digits = Some [replicate 4301 49]
  ∧ int_of_str (decimal_value (deployment (service_42 [u "hard"]))) (replicate 4301 49)
    = Raise ValueError
  ∧ github_webhook (deployment (service_42 [u "hard"]))
      (delivery (pull_request_event (u "closed") true (JStr reference_4301_digits)))
      (World ∅ [])
    = (Raise ValueError, World ∅ [EvalJson])
  ∧ http_status (Raise ValueError) = 500%Z.
Proof.
  assert (int_max_str_digits < length (replicate 4301 49))%nat as Hlen.
  { rewrite length_replicate. unfold int_max_str_digits. lia. }
  repeat apply conj.
  - apply search_complete, reference_4301_digits_found.
  - by apply int_of_str_long.
  - apply (webhook_long_reference _ _ (octocat_event (Some reference_4301_digits))
             (replicate 4301 49) (World ∅ [])
             (octocat_delivery _ _) (reference_4301_digits_found _) Hlen).
  - reflexivity.
Qed.

(** C4 (amended). For every issue number the handler extracts (the number
    written by the digits of the first reference, which are no more than
    [int] converts): when the fetch answers with a status other than 200, the
    resolver returns zero points
    without raising, the ledger is unchanged and the handler answers 204; when
    the fetch fails on the network, the ledger is unchanged as well, and the
    exception of the fetch is what the handler ends with; on a 200 answer the
    label names are lower-cased before the policy looks at them. *)
Theorem resolver_outcomes (e : env) (rq : request) (ev : merge_event) (ds : str)
    (w : world) :
  merged_delivery e rq ev →
  first_reference (isdecimal e) (default [] (body ev)) ds →
  (length ds ≤ int_max_str_digits)%nat →
  ∃ n, int_of_str (decimal_value e) ds = Ret n ∧
    let url := issue_url n in
    let w1 := after w [EvalJson] in
    (∀ status body,
       requests_get e url = Responded status body → status ≠ 200%Z →
       get_points_from_pr_labels e n w1
       = (Ret 0%Z, after w1 (HttpGet url :: fetch_error_prints n status))
       ∧ github_webhook e rq w
         = (Ret no_content, after w1 (HttpGet url :: fetch_error_prints n status))
       ∧ scores (snd (github_webhook e rq w)) = scores w)
    ∧ (requests_get e url = ConnectionFailed →
       github_webhook e rq w = (Raise ConnectionError, after w1 [HttpGet url])
       ∧ scores (snd (github_webhook e rq w)) = scores w)
    ∧ (∀ data items names,
         requests_get e url = Responded 200 (Some data) →
         dict_get data (u "labels") (JList []) = Ret (JList items) →
         Forall2 (fun item name => getitem item (u "name") = Ret (JStr name))
           items names →
         get_points_from_pr_labels e n w1
         = (Ret (label_points (list_to_set (map (str_lower e) names))),
            after w1 [HttpGet url])).
Proof.
  intros Hd Hds Hlen.
  destruct (webhook_first_reference e rq ev ds w Hd Hds Hlen) as (n & Hn & Hne & Hweb).
  exists (Z.of_N n). split; [by apply int_of_str_digits|].
  cbv zeta. repeat apply conj.
  - intros status body Hget Hstatus.
    pose proof (get_points_not_200 e (Z.of_N n) status body (after w [EvalJson])
                  Hget Hstatus) as Hp.
    rewrite Hweb, (award_zero _ _ _ _ _ _ _ Hp). by rewrite Hp.
  - intros Hget.
    pose proof (get_points_failed e (Z.of_N n) (after w [EvalJson]) Hget) as Hp.
    by rewrite Hweb, (award_raise _ _ _ _ _ _ _ _ Hp).
  - intros data items names Hget Hl Hnames. by apply get_points_200 with data items.
Qed.

Lemma fixes_42_reference (service : str → fetch) :
  first_reference (isdecimal (deployment service)) (u "Fixes #42") (u "42").
Proof. apply first_reference_computed. vm_compute. reflexivity. Qed.

Lemma resolver_outcomes_witness :
  let e := deployment (service_42 [u "Medium"; u "docs"]) in
  let rq := delivery (pull_request_event (u "closed") true (JStr (u "Fixes #42"))) in
  ∃ n, int_of_str (decimal_value e) (u "42") = Ret n ∧
    get_points_from_pr_labels e n (after (World ∅ []) [EvalJson])
    = (Ret 10%Z,
       after (World ∅ []) [EvalJson; HttpGet (issue_url n)]).
Proof.
  cbv zeta.
  destruct (resolver_outcomes (deployment (service_42 [u "Medium"; u "docs"]))
              (delivery (pull_request_event (u "closed") true (JStr (u "Fixes #42"))))
              (octocat_event (Some (u "Fixes #42"))) (u "42") (World ∅ [])
              (octocat_delivery _ _)
              (fixes_42_reference _) ltac:(vm_compute; lia))
    as (n & Hn & _ & _ & H200).
  exists n. split; [exact Hn|].
  assert (n = 42%Z) as -> by (vm_compute in Hn; congruence).
  rewrite (H200 (issue_with_labels [u "Medium"; u "docs"])
             (map (fun name => JDict [(u "name", JStr name)]) [u "Medium"; u "docs"])
             [u "Medium"; u "docs"] eq_refl eq_refl).
  - rewrite after_after. vm_compute. reflexivity.
  - repeat constructor.
Defined.

(** Counterexample to C4 as stated: the service cannot be reached; the fetch
    raises, nothing catches it, and flask answers 500 instead of 204. *)
Lemma network_failure_propagates :
  github_webhook (deployment unreachable_service)
    (delivery (pull_request_event (u "closed") true (JStr (u "Fixes #42"))))
    (World ∅ [])
  = (Raise ConnectionError, World ∅ [EvalJson; HttpGet (issue_url 42)])
  ∧ http_status (Raise ConnectionError) = 500%Z.
Proof. split; [vm_compute|]; reflexivity. Qed.

(** *** Payloads that are not merged pull requests *)

Lemma dict_get_action (kvs : list (str * json)) :
  dict_get (JDict kvs) (u "action") JNull = Ret (default JNull (assoc (u "action") kvs)).
Proof. reflexivity. Qed.

Lemma getitem_dict (kvs : list (str * json)) (k : str) :
  getitem (JDict kvs) k
  = match assoc k kvs with Some x => Ret x | None => Raise KeyError end.
Proof. reflexivity. Qed.

Lemma eq_str_true (v : json) (s : str) : eq_str v s = true ↔ v = JStr s.
Proof.
  unfold eq_str. destruct v; try (split; [done|discriminate]).
  rewrite bool_decide_eq_true. split; [by intros ->|by intros [= ->]].
Qed.

Ltac closed_payload Hj Hact :=
  unfold process_payload, get_json; rewrite Hj; autorewrite with monad;
  rewrite dict_get_action, Hact; autorewrite with monad;
  change (eq_str (default JNull (Some (JStr (u "closed")))) (u "closed")) with true;
  cbv iota; autorewrite with monad.

(** C7 (amended). For every authenticated request, whenever the handler ends
    in an exception the ledger is as it was and no announcement has been
    dispatched; but the handler checks no field and catches nothing.  A
    payload that is a JSON object whose action is missing or is not "closed"
    is a no-op answered 204, whatever else it lacks, and so is a "closed"
    payload whose pull_request object has a merged field that is false.  A
    body that is not JSON ends in the error flask raises for it; a "closed"
    payload without a pull_request object, or whose pull_request object has
    no merged field, ends in a KeyError; and so does a merged, closed pull
    request that lacks one of user, the login of user, number, title and
    html_url. *)
Theorem malformed_payloads (e : env) (rq : request) (w : world) :
  authentic e rq →
  (∀ kvs, json_body rq = Parsed (JDict kvs) →
     assoc (u "action") kvs ≠ Some (JStr (u "closed")) →
     github_webhook e rq w = (Ret no_content, after w [EvalJson]))
  ∧ (∀ kvs pr merged, json_body rq = Parsed (JDict kvs) →
       assoc (u "action") kvs = Some (JStr (u "closed")) →
       assoc (u "pull_request") kvs = Some (JDict pr) →
       assoc (u "merged") pr = Some merged → truthy merged = false →
       github_webhook e rq w = (Ret no_content, after w [EvalJson]))
  ∧ (∀ code, json_body rq = Refused code →
       github_webhook e rq w = (Raise (HTTPException code), after w [EvalJson]))
  ∧ (∀ kvs, json_body rq = Parsed (JDict kvs) →
       assoc (u "action") kvs = Some (JStr (u "closed")) →
       assoc (u "pull_request") kvs = None →
       github_webhook e rq w = (Raise KeyError, after w [EvalJson]))
  ∧ (∀ kvs pr, json_body rq = Parsed (JDict kvs) →
       assoc (u "action") kvs = Some (JStr (u "closed")) →
       assoc (u "pull_request") kvs = Some (JDict pr) →
       assoc (u "merged") pr = None →
       github_webhook e rq w = (Raise KeyError, after w [EvalJson]))
  ∧ (∀ kvs pr merged, json_body rq = Parsed (JDict kvs) →
       assoc (u "action") kvs = Some (JStr (u "closed")) →
       assoc (u "pull_request") kvs = Some (JDict pr) →
       assoc (u "merged") pr = Some merged → truthy merged = true →
       assoc (u "user") pr = None
       ∨ (∃ user, assoc (u "user") pr = Some (JDict user)
                  ∧ (assoc (u "login") user = None
                     ∨ assoc (u "number") pr = None
                     ∨ assoc (u "title") pr = None
                     ∨ assoc (u "html_url") pr = None)) →
       github_webhook e rq w = (Raise KeyError, after w [EvalJson]))
  ∧ (∀ x w', github_webhook e rq w = (Raise x, w') →
       scores w' = scores w ∧ sends w' = sends w).
Proof.
  intros Ha. rewrite webhook_authentic by done. repeat apply conj.
  - intros kvs Hj Hne. apply process_not_closed with (JDict kvs) (default JNull (assoc (u "action") kvs));
      [done|apply dict_get_action|].
    apply not_true_is_false. rewrite eq_str_true. intros Heq. apply Hne.
    destruct (assoc (u "action") kvs); cbn in Heq; congruence.
  - intros kvs pr merged Hj Hact Hpr Hm Ht.
    apply process_not_merged with (JDict kvs) (JDict pr) merged; [done| | | |done].
    + by rewrite dict_get_action, Hact.
    + by rewrite getitem_dict, Hpr.
    + by rewrite getitem_dict, Hm.
  - intros code Hj. unfold process_payload, get_json. rewrite Hj. by autorewrite with monad.
  - intros kvs Hj Hact Hpr. closed_payload Hj Hact.
    rewrite !getitem_dict, Hpr. by autorewrite with monad.
  - intros kvs pr Hj Hact Hpr Hm. closed_payload Hj Hact.
    rewrite !getitem_dict, Hpr. autorewrite with monad.
    rewrite !getitem_dict, Hm. by autorewrite with monad.
  - intros kvs pr merged Hj Hact Hpr Hm Ht Hmissing.
    closed_payload Hj Hact.
    rewrite !getitem_dict, Hpr. autorewrite with monad.
    rewrite !getitem_dict, Hm. autorewrite with monad. rewrite Ht. cbv iota.
    autorewrite with monad. rewrite ?getitem_dict, ?Hpr. autorewrite with monad.
    rewrite ?getitem_dict.
    destruct Hmissing as [Hu|(user & Hu & Hrest)]; rewrite Hu; [by autorewrite with monad|].
    autorewrite with monad. rewrite !getitem_dict.
    destruct (assoc (u "login") user) as [login|]; [|by autorewrite with monad].
    autorewrite with monad.
    destruct (assoc (u "number") pr) as [number|]; [|by autorewrite with monad].
    autorewrite with monad.
    destruct (assoc (u "title") pr) as [title|]; [|by autorewrite with monad].
    autorewrite with monad.
    destruct (assoc (u "html_url") pr) as [html_url|]; [|by autorewrite with monad].
    by destruct Hrest as [?|[?|[?|?]]].
  - intros x w' H. by apply (safe_process_payload e rq w x w').
Qed.

Lemma malformed_payloads_witness :
  let e := deployment unreachable_service in
  let rq := delivery (JDict [(u "zen", JStr (u "Keep it logically awesome."))]) in
  github_webhook e rq (World ∅ []) = (Ret no_content, World ∅ [EvalJson]).
Proof.
  cbv zeta.
  destruct (malformed_payloads (deployment unreachable_service)
              (delivery (JDict [(u "zen", JStr (u "Keep it logically awesome."))]))
              (World ∅ []) eq_refl) as (H & _).
  apply (H [(u "zen", JStr (u "Keep it logically awesome."))] eq_refl).
  vm_compute. discriminate.
Defined.

(** Counterexample to C7 as stated: the claim's own malformed payload, an
    authenticated [{"action":"closed"}], ends in a KeyError, which flask
    answers with 500; and a body that is not JSON is answered with an error
    too. *)
Lemma closed_without_pull_request_raises :
  github_webhook (deployment unreachable_service) (delivery closed_only) (World ∅ [])
  = (Raise KeyError, World ∅ [EvalJson])
  ∧ http_status (Raise KeyError) = 500%Z
  ∧ github_webhook (deployment unreachable_service)
      (Request (Some (expected_signature (u "s3cr3t") (u "not json"))) (u "not json")
         (Refused 415))
      (World ∅ [])
    = (Raise (HTTPException 415), World ∅ [EvalJson]).
Proof. repeat apply conj; [vm_compute| |vm_compute]; reflexivity. Qed.




(** *** A keyword inside a longer word *)

Lemma is_closing_keyword_strip (w : str) :
  is_closing_keyword w →
  existsb (fun kw => bool_decide (strip_word kw w = Some [])) closing_keywords = true.
Proof.
  intros (kw & Hkw & Hsame). apply existsb_exists. exists kw.
  split; [by apply list_elem_of_In|]. apply bool_decide_eq_true, strip_word_spec.
  exists w. by rewrite app_nil_r.
Qed.

(** C10. The pattern does not anchor the keywords at a word boundary: the text
    "prefixes #3" has the words "prefixes" and "3", neither of them a closing
    keyword, and yet it has a first closing reference, with the digits "3":
    the search of the handler succeeds on it with group "3", which [int] reads
    as 3, and a merged pull request with this description is scored for
    issue 3. *)
Theorem keyword_inside_a_word (e : env) (rq : request) (ev : merge_event) (w : world) :
  decimal_value e 51 = Some 3 →
  merged_delivery e rq ev → body ev = Some (u "prefixes #3") →
  standalone_words (u "prefixes #3") = [u "prefixes"; u "3"]
  ∧ (∀ word, word ∈ standalone_words (u "prefixes #3") → ¬ is_closing_keyword word)
  ∧ first_reference (isdecimal e) (u "prefixes #3") (u "3")
  ∧ search_issue e (JStr (u "prefixes #3")) = Ret (Some [u "3"])
  ∧ int_of_str (decimal_value e) (u "3") = Ret 3%Z
  ∧ github_webhook e rq w
    = award e (JStr (author_identity ev)) (title ev) (url ev) 3 (after w [EvalJson]).
Proof.
  intros H3 Hd Hbody.
  assert (isdecimal e 51 = true) as Hdec.
  { unfold isdecimal. rewrite H3. by apply bool_decide_eq_true. }
  assert (first_reference (isdecimal e) (u "prefixes #3") (u "3")) as Hfirst.
  { exists (u "pre"), (u "fixes #3"). repeat apply conj; [done| |].
    - exists (u "fixes"), (u "fixes"), 32, []. repeat apply conj; try done.
      + set_solver.
      + repeat constructor; set_solver.
      + by repeat constructor.
    - intros before' from_there ds' Heq Hlen Href.
      apply reference_here_spec in Href.
      unfold u in Hlen, Heq. cbn in Hlen, Heq.
      destruct before' as [|a [|b [|c before']]]; [| | |cbn in Hlen; lia];
        cbn in Heq; simplify_eq; vm_compute in Href; discriminate. }
  repeat apply conj.
  - reflexivity.
  - intros word Hin Hkw%is_closing_keyword_strip.
    apply list_elem_of_In in Hin. vm_compute in Hin.
    destruct Hin as [<-|[<-|[]]]; vm_compute in Hkw; discriminate.
  - exact Hfirst.
  - unfold search_issue. by rewrite (search_complete _ _ _ Hfirst).
  - apply (int_of_str_digits _ (u "3") 3); [done|vm_compute; lia|].
    change (u "3") with [51]. cbn [int_digits]. by rewrite H3.
  - destruct (webhook_first_reference e rq ev (u "3") w Hd) as (n & Hn & _ & Hweb).
    + by rewrite Hbody.
    + vm_compute. lia.
    + change (u "3") with [51] in Hn. cbn [int_digits] in Hn. rewrite H3 in Hn.
      injection Hn as <-. exact Hweb.
Qed.

Lemma keyword_inside_a_word_witness :
  let e := deployment (service_42 [u "medium"]) in
  github_webhook e
    (delivery (pull_request_event (u "closed") true (JStr (u "prefixes #3"))))
    (World ∅ [])
  = award e (JStr (u "octocat")) (JStr (u "Add parser"))
      (JStr (u "https://github.com/o/r/pull/7")) 3 (World ∅ [EvalJson]).
Proof.
  cbv zeta.
  apply (keyword_inside_a_word (deployment (service_42 [u "medium"]))
           (delivery (pull_request_event (u "closed") true (JStr (u "prefixes #3"))))
           (octocat_event (Some (u "prefixes #3"))) (World ∅ []) eq_refl
           (octocat_delivery _ _) eq_refl).
Defined.

(** *** Signature verification *)

(** C2, at the failing input. A signature header that starts with the prefix
    and holds a character outside ASCII differs from the expected signature,
    yet the request is not answered with 403: [hmac.compare_digest] refuses to
    compare the two strings, the [TypeError] is not caught, and flask answers
    500.  (Nothing has been parsed or written at that point.) *)
Theorem signature_outside_ascii_raises :
  let rq := Request (Some (u "sha256=" ++ [0xe9])) (json_text closed_only)
              (Parsed closed_only) in
  github_webhook (deployment unreachable_service) rq (World ∅ [])
  = (Raise TypeError, World ∅ [])
  ∧ http_status (Raise TypeError) = 500%Z.
Proof. split; [vm_compute|]; reflexivity. Qed.

(** A missing signature header, or one that does not start with the prefix
    (the empty one included), is answered 400 before anything else happens:
    no JSON is parsed, nothing is printed, fetched or written. *)
Theorem missing_or_malformed_signature (e : env) (rq : request) (w : world) :
  signature_header rq = None
  ∨ (∃ s, signature_header rq = Some s ∧ startswith (u "sha256=") s = false) →
  github_webhook e rq w = (Raise (HTTPException 400), w)
  ∧ http_status (fst (github_webhook e rq w)) = 400%Z.
Proof.
  intros H.
  assert (github_webhook e rq w = (Raise (HTTPException 400), w)) as ->; [|done].
  unfold github_webhook. rewrite bind_run. unfold verify_signature.
  destruct H as [->|(s & -> & Hs)]; [done|]. rewrite Hs. cbn [negb].
  by rewrite orb_true_r.
Qed.

Lemma missing_or_malformed_signature_witness :
  github_webhook (deployment unreachable_service)
    (Request (Some (u "sha1=da39a3ee")) (json_text closed_only) (Parsed closed_only))
    (World ∅ [])
  = (Raise (HTTPException 400), World ∅ [])
  ∧ http_status
      (fst (github_webhook (deployment unreachable_service)
              (Request (Some (u "sha1=da39a3ee")) (json_text closed_only)
                 (Parsed closed_only))
              (World ∅ [])))
    = 400%Z.
Proof.
  apply missing_or_malformed_signature. right. exists (u "sha1=da39a3ee").
  split; reflexivity.
Defined.

(** A signature header that starts with the prefix, is ASCII and differs from
    the HMAC-SHA256 of the raw body under the secret is answered 403, again
    before any JSON parsing. *)
Theorem mismatched_signature (e : env) (rq : request) (s : str) (w : world) :
  signature_header rq = Some s → startswith (u "sha256=") s = true →
  isascii s = true → s ≠ expected_signature (secret_key e) (data rq) →
  github_webhook e rq w = (Raise (HTTPException 403), w)
  ∧ http_status (fst (github_webhook e rq w)) = 403%Z.
Proof.
  intros Hs Hp Ha Hne.
  assert (github_webhook e rq w = (Raise (HTTPException 403), w)) as ->; [|done].
  unfold github_webhook. rewrite bind_run. unfold verify_signature. rewrite Hs, Hp.
  assert (bool_decide (s = []) = false) as ->.
  { apply bool_decide_eq_false. by intros ->. }
  cbn [negb orb]. rewrite bind_run. unfold lift, compare_digest.
  rewrite expected_signature_ascii, Ha. cbn [andb].
  rewrite bool_decide_eq_false_2 by congruence. reflexivity.
Qed.

Lemma mismatched_signature_witness :
  github_webhook (deployment unreachable_service)
    (Request (Some (u "sha256=00")) (json_text closed_only) (Parsed closed_only))
    (World ∅ [])
  = (Raise (HTTPException 403), World ∅ [])
  ∧ http_status
      (fst (github_webhook (deployment unreachable_service)
              (Request (Some (u "sha256=00")) (json_text closed_only)
                 (Parsed closed_only))
              (World ∅ [])))
    = 403%Z.
Proof.
  apply (mismatched_signature _ _ (u "sha256=00")); [reflexivity..|].
  vm_compute. discriminate.
Defined.

(** A request whose header is the signature of its body under the secret
    passes the verification: the handler goes on to process the payload. *)
Theorem correct_signature_accepted (e : env) (rq : request) (w : world) :
  authentic e rq →
  verify_signature e rq w = (Ret tt, w)
  ∧ github_webhook e rq w = process_payload e rq w.
Proof.
  intros H. split; [by apply verify_signature_authentic|by apply webhook_authentic].
Qed.

Lemma correct_signature_accepted_witness :
  verify_signature (deployment unreachable_service) (delivery closed_only) (World ∅ [])
  = (Ret tt, World ∅ [])
  ∧ github_webhook (deployment unreachable_service) (delivery closed_only) (World ∅ [])
    = process_payload (deployment unreachable_service) (delivery closed_only)
        (World ∅ []).
Proof. apply correct_signature_accepted. reflexivity. Defined.

(** Any request whose header is not exactly the signature of its body (a
    changed signature, or a changed body whose HMAC is not the one signed) is
    rejected before anything is parsed or written: with 400, with 403, or
    with the [TypeError] of the comparison. *)
Theorem forged_signature_rejected (e : env) (rq : request) (w : world) :
  ¬ authentic e rq →
  ∃ x, github_webhook e rq w = (Raise x, w)
       ∧ x ∈ [HTTPException 400; HTTPException 403; TypeError].
Proof.
  intros H. destruct (verify_signature_rejects e rq w H) as (x & Hx & Hin).
  exists x. split; [|done]. unfold github_webhook. by rewrite bind_run, Hx.
Qed.

Lemma forged_signature_rejected_witness :
  ∃ x, github_webhook (deployment unreachable_service)
         (Request (Some (expected_signature (u "s3cr3t") (json_text closed_only)))
            (json_text issue_closed_event) (Parsed issue_closed_event))
         (World ∅ [])
       = (Raise x, World ∅ [])
       ∧ x ∈ [HTTPException 400; HTTPException 403; TypeError].
Proof.
  apply forged_signature_rejected. unfold authentic. vm_compute. discriminate.
Defined.

(** The scenario of the specification: secret "s3cr3t", description
    "Fixes #42", issue 42 labelled "medium": the author, absent from the
    ledger, gets 10 points, and the answer is 204. *)
Example scenario_fixes_42 :
  let r := github_webhook (deployment (service_42 [u "medium"]))
             (delivery (pull_request_event (u "closed") true (JStr (u "Fixes #42"))))
             (World ∅ []) in
  fst r = Ret no_content
  ∧ scores (snd r) !! u "octocat" = Some 10%Z
  ∧ trace (snd r)
    = [EvalJson; HttpGet (issue_url 42); Print (UpdatedScore (u "octocat") 10);
       ChannelSend (JStr (u "Add parser")) (JStr (u "https://github.com/o/r/pull/7"))
         (u "octocat") 10].
Proof. repeat apply conj; vm_compute; reflexivity. Qed.

(** The flag [re.IGNORECASE] at work: with it the first reference of the text
    is the one written "FiXeS #12"; a search that minds the case would only
    find "closes #3". *)
Example reference_in_mixed_case :
  Re.search true (isdecimal (deployment unreachable_service)) issue_pattern
    (u "This FiXeS #12 and closes #3") = Some [u "12"]
  ∧ Re.search false (isdecimal (deployment unreachable_service)) issue_pattern
      (u "This FiXeS #12 and closes #3") = Some [u "3"].
Proof. split; vm_compute; reflexivity. Qed.

(** The signature GitHub would send for [{"action":"closed"}] under the
    secret "s3cr3t", as computed by Python's hmac module. *)
Example signature_of_closed_only :
  expected_signature (u "s3cr3t") (json_text closed_only)
  = u "sha256=8d54791e0c9ebafd268136075384c7aaddbe71cc03c5959099f01ba42f3ac289".
Proof. vm_compute. reflexivity. Qed.

(** ** Concurrent deliveries *)

Import Threads.

Lemma run_schedule_app (l1 l2 : list nat) (cs : list call) (s : conn) :
  run_schedule (l1 ++ l2) cs s
  = run_schedule l2 (run_schedule l1 cs s).1 (run_schedule l1 cs s).2.
Proof.
  revert cs s. induction l1 as [|i l1 IH]; intros cs s; cbn [app run_schedule]; [done|].
  destruct (step_at i cs s) as [cs' s']. apply IH.
Qed.

Lemma run_replicate (n : nat) (i : nat) (cs : list call) (c : call) (s : conn) :
  cs !! i = Some c →
  run_schedule (replicate n i) cs s = (<[i := (steps n c s).1]> cs, (steps n c s).2).
Proof.
  revert cs c s. induction n as [|n IH]; intros cs c s Hc; cbn [replicate run_schedule steps].
  - by rewrite list_insert_id.
  - unfold step_at. rewrite Hc. destruct (step c s) as [c' s'].
    rewrite (IH _ c') by (apply list_lookup_insert_eq; by eapply lookup_lt_Some).
    by rewrite list_insert_insert_eq.
Qed.

Lemma steps_alone (username : str) (points_to_add : Z) (s : conn) :
  (default 0 (table s !! username) + points_to_add ≤ sqlite_max_integer)%Z →
  steps statements (start username points_to_add) s
  = (Call username points_to_add Finished,
     Conn (accumulate (table s) username points_to_add) []).
Proof.
  intros Hfit. unfold statements, start, accumulate.
  cbn [steps step at_line Threads.username Threads.points_to_add goto cursor table].
  destruct (table s !! username) as [p|] eqn:E;
    cbn [default from_option id] in Hfit |- *;
    cbn [steps step at_line Threads.username Threads.points_to_add goto cursor table];
    rewrite bind_points_fits by lia;
    cbn [steps step at_line Threads.username Threads.points_to_add goto cursor table];
    rewrite ?E; reflexivity.
Qed.

Lemma steps_alone_overflow (username : str) (points_to_add : Z) (s : conn) :
  (sqlite_max_integer < default 0 (table s !! username) + points_to_add)%Z →
  steps statements (start username points_to_add) s
  = (Call username points_to_add (Failed OverflowError), Conn (table s) []).
Proof.
  intros Hover. unfold statements, start.
  cbn [steps step at_line Threads.username Threads.points_to_add goto cursor table].
  destruct (table s !! username) as [p|] eqn:E;
    cbn [default from_option id] in Hover |- *;
    cbn [steps step at_line Threads.username Threads.points_to_add goto cursor table];
    rewrite bind_points_overflow by lia;
    cbn [steps step at_line Threads.username Threads.points_to_add goto cursor table];
    reflexivity.
Qed.

Lemma call_alone_is_update_score (username : str) (points_to_add : Z) (s : conn)
    (tr : list event) :
  table (steps statements (start username points_to_add) s).2
  = scores (update_score username points_to_add (World (table s) tr)).2.
Proof.
  destruct (Z_le_gt_dec (default 0 (table s !! username) + points_to_add)%Z
              sqlite_max_integer) as [H|H].
  - by rewrite steps_alone, update_score_run.
  - by rewrite steps_alone_overflow, update_score_overflow by (cbn [scores]; lia).
Qed.

Lemma total_omap_nonneg (cs : list call) (order : list nat) :
  (∀ i c, i ∈ order → cs !! i = Some c → (0 ≤ points_to_add c)%Z) →
  (0 ≤ total (omap (fun i => points_to_add <$> cs !! i) order))%Z.
Proof.
  induction order as [|i order IH]; intros H; [done|].
  assert (0 ≤ total (omap (fun i => points_to_add <$> cs !! i) order))%Z as Hrest.
  { apply IH. intros j c Hj. apply H. by right. }
  cbn [omap list_omap]. destruct (cs !! i) as [c|] eqn:Hc; cbn [fmap option_fmap option_map].
  - change (total (?d :: ?l)) with (d + total l)%Z.
    pose proof (H i c ltac:(left) Hc). unfold total in *. cbn. lia.
  - exact Hrest.
Qed.

Lemma accumulate_lookup (t : gmap str Z) (identity : str) (delta : Z) :
  default 0%Z (accumulate t identity delta !! identity)
  = (default 0 (t !! identity) + delta)%Z.
Proof. unfold accumulate. by rewrite lookup_insert_eq. Qed.

Lemma accumulate_other (t : gmap str Z) (identity other : str) (delta : Z) :
  other ≠ identity → accumulate t identity delta !! other = t !! other.
Proof. intros H. unfold accumulate. by rewrite lookup_insert_ne. Qed.

Lemma omap_cons {A B} (f : A → option B) (x : A) (l : list A) :
  omap f (x :: l) = match f x with Some y => y :: omap f l | None => omap f l end.
Proof. reflexivity. Qed.

Lemma omap_ext_in {A B} (f g : A → option B) (l : list A) :
  (∀ x, x ∈ l → f x = g x) → omap f l = omap g l.
Proof.
  induction l as [|x l IH]; intros H; [done|]. rewrite !omap_cons.
  rewrite (H x) by left. rewrite IH; [done|]. intros y Hy. apply H. by right.
Qed.

(** The calls of [order], run one after another on calls that have not
    started, with deltas that are not negative and a sum the table can
    store: each finishes, and the table gains each delta in turn. *)
Lemma one_after_another_run (identity : str) (order : list nat) :
  ∀ (cs : list call) (s : conn),
    NoDup order →
    (∀ i, i ∈ order → ∃ delta, cs !! i = Some (start identity delta) ∧ (0 ≤ delta)%Z) →
    (default 0 (table s !! identity)
     + total (omap (fun i => points_to_add <$> cs !! i) order) ≤ sqlite_max_integer)%Z →
    let r := run_schedule (one_after_another order) cs s in
    length r.1 = length cs
    ∧ (∀ i, i ∈ order → ∃ c, r.1 !! i = Some c ∧ at_line c = Finished)
    ∧ (∀ i, i ∉ order → r.1 !! i = cs !! i)
    ∧ default 0%Z (table r.2 !! identity)
      = (default 0 (table s !! identity)
         + total (omap (fun i => points_to_add <$> cs !! i) order))%Z
    ∧ (∀ other, other ≠ identity → table r.2 !! other = table s !! other).
Proof.
  induction order as [|i order IH]; intros cs s Hnd Hstart Hfit.
  - cbn. repeat apply conj; [done|set_solver|done|lia|done].
  - apply NoDup_cons in Hnd as [Hi Hnd].
    destruct (Hstart i ltac:(left)) as (delta & Hci & Hdelta).
    assert (0 ≤ total (omap (fun j => points_to_add <$> cs !! j) order))%Z as Hrest0.
    { apply total_omap_nonneg. intros j c Hj Hc.
      destruct (Hstart j ltac:(by right)) as (d & Hd & Hpos).
      rewrite Hd in Hc. injection Hc as <-. done. }
    rewrite omap_cons, Hci in Hfit.
    cbn [fmap option_fmap option_map points_to_add start] in Hfit.
    change (total (delta :: ?l)) with (delta + total l)%Z in Hfit.
    unfold one_after_another. cbn [flat_map]. rewrite run_schedule_app.
    rewrite (run_replicate _ _ _ _ _ Hci), steps_alone by lia. cbn [fst snd].
    set (cs1 := <[i := Call identity delta Finished]> cs).
    set (s1 := Conn (accumulate (table s) identity delta) []).
    assert (omap (λ j, points_to_add <$> cs1 !! j) order
            = omap (λ j, points_to_add <$> cs !! j) order) as Hsame.
    { apply omap_ext_in. intros j Hj. unfold cs1.
      rewrite list_lookup_insert_ne; [done|]. by intros ->. }
    assert (∀ j, j ∈ order → ∃ d, cs1 !! j = Some (start identity d) ∧ (0 ≤ d)%Z)
      as Hstart1.
    { intros j Hj. unfold cs1. rewrite list_lookup_insert_ne by (intros ->; done).
      apply Hstart. by right. }
    assert (default 0 (table s1 !! identity)
            + total (omap (fun j => points_to_add <$> cs1 !! j) order)
            ≤ sqlite_max_integer)%Z as Hfit1.
    { rewrite Hsame. unfold s1. cbn [table]. rewrite accumulate_lookup. lia. }
    destruct (IH cs1 s1 Hnd Hstart1 Hfit1) as (Hlen & Hfin & Hrest & Hsum & Hother).
    fold (one_after_another order). repeat apply conj.
    + rewrite Hlen. unfold cs1. by rewrite length_insert.
    + intros j [->|Hj]%elem_of_cons; [|by apply Hfin].
      rewrite (Hrest i Hi). unfold cs1. rewrite list_lookup_insert_eq by (by eapply lookup_lt_Some).
      eauto.
    + intros j Hj. apply not_elem_of_cons in Hj as [Hne Hj]. rewrite (Hrest j Hj).
      unfold cs1. by rewrite list_lookup_insert_ne.
    + rewrite Hsum. unfold s1. cbn [table]. rewrite accumulate_lookup.
      rewrite omap_cons, Hci. cbn [fmap option_fmap option_map points_to_add start].
      change (total (delta :: ?l)) with (delta + total l)%Z.
      rewrite Hsame. lia.
    + intros other Hne. rewrite (Hother other Hne). unfold s1. cbn [table].
      by apply accumulate_other.
Qed.

Lemma total_Permutation (l1 l2 : list Z) : l1 ≡ₚ l2 → total l1 = total l2.
Proof.
  unfold total. induction 1 as [|x l1 l2 _ IH|x y l|l1 l2 l3 _ IH1 _ IH2]; cbn; lia.
Qed.

Lemma omap_lookup_seq {A B} (g : A → B) (pre rest : list A) :
  omap (fun i => g <$> (pre ++ rest) !! i) (seq (length pre) (length rest)) = g <$> rest.
Proof.
  revert pre. induction rest as [|x rest IH]; intros pre; [done|].
  cbn [length seq]. rewrite omap_cons, list_lookup_middle by done. cbn [fmap option_fmap option_map].
  rewrite fmap_cons. f_equal. specialize (IH (pre ++ [x])).
  rewrite <- app_assoc, length_app in IH. cbn [app length] in IH.
  by rewrite Nat.add_1_r in IH.
Qed.

(** C9 (amended). For every identity, accumulate calls for that identity that
    run one after another, in any order, each making all its statements before
    the next one starts, lose no delta, as long as the points stay within the
    integers the table stores (the record is no smaller than -2^63, the
    deltas are positive, and the record with all of them added stays below
    2^63): every call finishes, the final points are the initial points (none
    counting as zero) plus the sum of all deltas, and the other records are
    as they were.  (The code takes no lock; what happens when the statements
    of two calls interleave is the counterexample below.) *)
Theorem calls_one_after_another (identity : str) (deltas : list Z) (order : list nat)
    (s : Threads.conn) :
  order ≡ₚ seq 0 (length deltas) →
  Forall (fun delta => 0 < delta)%Z deltas →
  (- 2 ^ 63 ≤ default 0 (table s !! identity))%Z →
  (default 0 (table s !! identity) + total deltas < 2 ^ 63)%Z →
  let r := run_schedule (one_after_another order) (map (start identity) deltas) s in
  Forall (fun c => at_line c = Finished) r.1
  ∧ default 0%Z (table r.2 !! identity)
    = (default 0 (table s !! identity) + total deltas)%Z
  ∧ (∀ other, other ≠ identity → table r.2 !! other = table s !! other).
Proof.
  intros Hperm Hpos _ Hmax. cbv zeta.
  change (2 ^ 63)%Z with (sqlite_max_integer + 1)%Z in Hmax.
  assert (NoDup order) as Hnd by (rewrite Hperm; apply NoDup_seq).
  assert (∀ i, i ∈ order → ∃ delta,
            map (start identity) deltas !! i = Some (start identity delta) ∧ (0 ≤ delta)%Z)
    as Hstart.
  { intros i Hi. rewrite Hperm in Hi. apply elem_of_seq in Hi as [_ Hi].
    destruct (lookup_lt_is_Some_2 deltas i) as [delta Hd]; [cbn in Hi; lia|].
    exists delta. change (map ?f ?l) with (f <$> l). rewrite list_lookup_fmap, Hd.
    split; [done|]. rewrite Forall_lookup in Hpos. specialize (Hpos i delta Hd). lia. }
  assert (total (omap (fun i => points_to_add <$> map (start identity) deltas !! i) order)
          = total deltas) as Htotal.
  { change (map ?f ?l) with (f <$> l).
    rewrite (total_Permutation _ (points_to_add <$> (start identity <$> deltas))).
    + f_equal. rewrite <- list_fmap_compose. clear. induction deltas as [|d ds IH]; [done|].
      cbn [fmap list_fmap]. by rewrite <- IH at 2.
    + rewrite Hperm. rewrite <- (length_fmap (start identity) deltas).
      by rewrite <- (omap_lookup_seq points_to_add [] (start identity <$> deltas)). }
  destruct (one_after_another_run identity order _ s Hnd Hstart ltac:(rewrite Htotal; lia))
    as (Hlen & Hfin & _ & Hsum & Hother).
  repeat apply conj.
  - apply Forall_lookup. intros i c Hc.
    assert (i ∈ order) as Hi.
    { rewrite Hperm. apply elem_of_seq. apply lookup_lt_Some in Hc.
      rewrite Hlen, length_map in Hc. lia. }
    destruct (Hfin i Hi) as (c' & Hc' & Hf). congruence.
  - by rewrite Hsum, Htotal.
  - exact Hother.
Qed.

Lemma calls_one_after_another_witness :
  let r := run_schedule (one_after_another [2; 0; 1]%nat)
             (map (start (u "octocat")) [20; 5; 10]%Z) (Conn ∅ []) in
  Forall (fun c => at_line c = Finished) r.1
  ∧ default 0%Z (table r.2 !! u "octocat")
    = (default 0 (table (Conn ∅ []) !! u "octocat") + total [20; 5; 10])%Z
  ∧ (∀ other, other ≠ u "octocat" → table r.2 !! other = table (Conn ∅ []) !! other).
Proof.
  apply (calls_one_after_another (u "octocat") [20; 5; 10]%Z [2; 0; 1]%nat (Conn ∅ [])).
  - cbn [length seq].
    by rewrite (Permutation_swap 0%nat 2%nat [1%nat]), (Permutation_swap 1%nat 2%nat []).
  - repeat constructor.
  - done.
  - done.
Defined.

(** Counterexample to C9 as stated: three deliveries for the same contributor
    on an empty ledger, worth 20, 5 and 10 points.  The first call runs alone;
    the other two then interleave so that both read the 20 points before
    either writes.  All three calls finish without an error, and the ledger
    ends at 30 points, not at the 35 the deltas add up to: the 5 are lost. *)
Lemma interleaved_calls_lose_a_delta :
  let r := run_schedule [0; 0; 0; 0; 0; 1; 1; 2; 2; 1; 1; 1; 2; 2; 2]%nat
             (map (start (u "octocat")) [20; 5; 10]%Z) (Conn ∅ []) in
  map at_line r.1 = [Finished; Finished; Finished]
  ∧ table r.2 !! u "octocat" = Some 30%Z
  ∧ total [20; 5; 10]%Z = 35%Z.
Proof. repeat apply conj; vm_compute; reflexivity. Qed.


(** * Further properties of the code *)

(** ** The label policy and the resolver *)

Lemma label_points_range (labels : gset str) : label_points labels ∈ [0; 5; 10; 20]%Z.
Proof. unfold label_points. repeat case_decide; rewrite !elem_of_cons; auto. Qed.

(** The policy takes the best label, it does not add: the points of the union
    of two label sets are the larger of the points of each.  In particular
    more labels never give fewer points. *)
Theorem label_points_union (labels1 labels2 : gset str) :
  label_points (labels1 ∪ labels2)
  = (label_points labels1 `max` label_points labels2)%Z
  ∧ (labels1 ⊆ labels2 → (label_points labels1 ≤ label_points labels2)%Z).
Proof.
  unfold label_points. split.
  - repeat case_decide; try lia; set_solver.
  - intros Hsub. repeat case_decide; try lia; set_solver.
Qed.

Lemma label_points_union_witness :
  (label_points {[u "easy"; u "docs"]} ≤ label_points {[u "easy"; u "docs"; u "hard"]})%Z.
Proof.
  apply (label_points_union {[u "easy"; u "docs"]} {[u "easy"; u "docs"; u "hard"]}).
  set_solver.
Defined.

(** The resolver never writes: whatever it returns or raises, the ledger and
    the announcements are as before; and when it returns, it returns one of
    0, 5, 10 and 20, after exactly one outbound request. *)
Theorem resolver_reads_only (e : env) (issue_number : Z) (w : world) :
  let r := get_points_from_pr_labels e issue_number w in
  scores r.2 = scores w ∧ sends r.2 = sends w
  ∧ (∃ rest, trace r.2 = trace w ++ HttpGet (issue_url issue_number) :: rest
             ∧ Forall (fun ev => ∀ url, ev ≠ HttpGet url) rest)
  ∧ (∀ points, r.1 = Ret points → points ∈ [0; 5; 10; 20]%Z).
Proof.
  cbv zeta.
  destruct (get_points_from_pr_labels e issue_number w) as [r w'] eqn:E.
  destruct (quiet_get_points e issue_number w r w' E) as [Hs Hn].
  cbn [fst snd]. repeat apply conj; [done|done| |].
  - unfold get_points_from_pr_labels in E. cbv zeta in E.
    autorewrite with monad in E.
    destruct (requests_get e _) as [|status body].
    { injection E as <- <-. exists []. by split. }
    destruct (negb _).
    { autorewrite with monad in E. injection E as <- <-. eexists. split; [reflexivity|].
      repeat constructor; discriminate. }
    exists [].
    destruct body as [d|]; autorewrite with monad in E; [|by injection E as <- <-].
    destruct (dict_get d _ _) as [ls|]; autorewrite with monad in E; [|by injection E as <- <-].
    destruct (iterate ls) as [items|]; autorewrite with monad in E; [|by injection E as <- <-].
    destruct (label_names e items) as [names|]; autorewrite with monad in E;
      by injection E as <- <-.
  - intros points ->. unfold get_points_from_pr_labels in E. cbv zeta in E.
    autorewrite with monad in E.
    destruct (requests_get e _) as [|status body]; [discriminate|].
    destruct (negb _).
    { autorewrite with monad in E. injection E as <- _. left. }
    destruct body as [d|]; autorewrite with monad in E; [|discriminate].
    destruct (dict_get d _ _) as [ls|]; autorewrite with monad in E; [|discriminate].
    destruct (iterate ls) as [items|]; autorewrite with monad in E; [|discriminate].
    destruct (label_names e items) as [names|]; autorewrite with monad in E; [|discriminate].
    injection E as <- _. apply label_points_range.
Qed.

(** What the resolver does with a 200 answer that is not the issue it
    expects: a body that is not JSON, JSON that is not an object, and a labels
    field that cannot be iterated each end in the exception of the statement
    that meets them; an object without a labels field, or with no labels,
    gives 0 points; a label without a name ends in a KeyError. *)
Theorem resolver_on_unexpected_answers (e : env) (issue_number : Z) (w : world) :
  let url := issue_url issue_number in
  let w1 := after w [HttpGet url] in
  (requests_get e url = Responded 200 None →
     get_points_from_pr_labels e issue_number w = (Raise JSONDecodeError, w1))
  ∧ (∀ data, requests_get e url = Responded 200 (Some data) →
       (∀ kvs, data ≠ JDict kvs) →
       get_points_from_pr_labels e issue_number w = (Raise AttributeError, w1))
  ∧ (∀ kvs, requests_get e url = Responded 200 (Some (JDict kvs)) →
       assoc (u "labels") kvs = None ∨ assoc (u "labels") kvs = Some (JList []) →
       get_points_from_pr_labels e issue_number w = (Ret 0%Z, w1))
  ∧ (∀ kvs ls, requests_get e url = Responded 200 (Some (JDict kvs)) →
       assoc (u "labels") kvs = Some ls → iterate ls = Raise TypeError →
       get_points_from_pr_labels e issue_number w = (Raise TypeError, w1))
  ∧ (∀ kvs items names fields rest,
       requests_get e url = Responded 200 (Some (JDict kvs)) →
       assoc (u "labels") kvs = Some (JList (items ++ JDict fields :: rest)) →
       Forall2 (fun item name => getitem item (u "name") = Ret (JStr name)) items names →
       assoc (u "name") fields = None →
       get_points_from_pr_labels e issue_number w = (Raise KeyError, w1)).
Proof.
  cbv zeta. unfold get_points_from_pr_labels. cbv zeta. repeat apply conj.
  - intros H. autorewrite with monad. rewrite H. cbn [Z.eqb Pos.eqb negb].
    by autorewrite with monad.
  - intros data H Hnot. autorewrite with monad. rewrite H. cbn [Z.eqb Pos.eqb negb].
    autorewrite with monad. destruct data; try (by autorewrite with monad).
    by destruct (Hnot d).
  - intros kvs H Hl. autorewrite with monad. rewrite H. cbn [Z.eqb Pos.eqb negb].
    autorewrite with monad. unfold dict_get. destruct Hl as [-> | ->]; cbn [from_option id];
      autorewrite with monad; cbn [iterate]; autorewrite with monad;
      cbn [label_names]; autorewrite with monad; reflexivity.
  - intros kvs ls H Hl Hit. autorewrite with monad. rewrite H. cbn [Z.eqb Pos.eqb negb].
    autorewrite with monad. unfold dict_get. rewrite Hl. cbn [from_option id].
    autorewrite with monad. rewrite Hit. by autorewrite with monad.
  - intros kvs items names fields rest H Hl Hnames Hname. autorewrite with monad.
    rewrite H. cbn [Z.eqb Pos.eqb negb]. autorewrite with monad. unfold dict_get.
    rewrite Hl. cbn [from_option id]. autorewrite with monad. cbn [iterate].
    autorewrite with monad.
    assert (label_names e (items ++ JDict fields :: rest) = Raise KeyError) as ->.
    { clear Hl. induction Hnames as [|item name items names Hi _ IH]; cbn [app label_names].
      - unfold label_name. rewrite getitem_dict, Hname. reflexivity.
      - unfold label_name at 1. rewrite Hi. by rewrite IH. }
    by autorewrite with monad.
Qed.

Lemma resolver_on_unexpected_answers_witness :
  get_points_from_pr_labels (deployment (fun _ => Responded 200 None)) 42 (World ∅ [])
  = (Raise JSONDecodeError, after (World ∅ []) [HttpGet (issue_url 42)]).
Proof.
  exact (proj1 (resolver_on_unexpected_answers (deployment (fun _ => Responded 200 None))
                  42 (World ∅ [])) eq_refl).
Defined.

(** ** What a delivery can do *)

Lemma get_points_range (e : env) (issue_number points : Z) (w w' : world) :
  get_points_from_pr_labels e issue_number w = (Ret points, w') →
  points ∈ [0; 5; 10; 20]%Z.
Proof.
  unfold get_points_from_pr_labels. cbv zeta. autorewrite with monad.
  destruct (requests_get e _) as [|status body]; [discriminate|].
  destruct (negb _).
  { autorewrite with monad. intros [= <- _]. left. }
  destruct body as [d|]; autorewrite with monad; [|discriminate].
  destruct (dict_get d _ _) as [ls|]; autorewrite with monad; [|discriminate].
  destruct (iterate ls) as [items|]; autorewrite with monad; [|discriminate].
  destruct (label_names e items) as [names|]; autorewrite with monad; [|discriminate].
  intros [= <- _]. apply label_points_range.
Qed.

Lemma award_not_text (e : env) (username title url : json) (issue_number points : Z)
    (w w' : world) :
  get_points_from_pr_labels e issue_number w = (Ret points, w') → (0 < points)%Z →
  (∀ name, username ≠ JStr name) →
  award e username title url issue_number w = (Raise NotModelled, w').
Proof.
  intros H Hp Hu. unfold award. rewrite bind_run, H. apply Z.ltb_lt in Hp. rewrite Hp.
  destruct username; try (by autorewrite with monad). by destruct (Hu s).
Qed.

Lemma sends_after_award (w : world) (db : gmap str Z) (m : message) (l : list event) :
  Forall (fun ev => is_send ev = true) l →
  sends (World db (trace w ++ Print m :: l)) = sends w ++ l.
Proof.
  intros Hl. unfold sends. cbn [trace]. rewrite filter_app, filter_cons_False by done.
  f_equal. induction Hl as [|ev l Hev _ IH]; [done|].
  by rewrite filter_cons_True, IH.
Qed.

Lemma award_at_most_once (e : env) (username title url : json) (issue_number : Z) :
  at_most_one_award e (award e username title url issue_number).
Proof.
  intros w r w' H.
  destruct (get_points_from_pr_labels e issue_number w) as [[points|x] w1] eqn:E.
  - destruct (quiet_get_points e issue_number w _ _ E) as [Hs Hn].
    pose proof (get_points_range _ _ _ _ _ E) as Hr.
    destruct (decide (points = 0%Z)) as [->|Hne].
    { rewrite (award_zero _ _ _ _ _ _ _ E) in H. injection H as <- <-. left.
      split; [done|]. by intros x [= <-]. }
    assert (0 < points)%Z as Hp.
    { rewrite !elem_of_cons in Hr. destruct Hr as [->|[->|[->|[->|[]%elem_of_nil]]]]; lia. }
    destruct username as [| | |name| |];
      try (rewrite (award_not_text _ _ _ _ _ _ _ _ E Hp) in H by done;
           injection H as <- <-; left; split; [done|discriminate]).
    destruct (Z_le_gt_dec (default 0 (scores w1 !! name) + points)%Z sqlite_max_integer)
      as [Hfit|Hover].
    + rewrite (award_points _ _ _ _ _ _ _ _ E Hp Hfit) in H. injection H as <- <-. right.
      split; [done|]. exists name, points, title, url. repeat apply conj.
      * rewrite !elem_of_cons in Hr. rewrite !elem_of_cons.
        destruct Hr as [->|[->|[->|[->|[]%elem_of_nil]]]]; auto. done.
      * cbn [scores]. by rewrite Hs.
      * rewrite sends_after_award, Hn; [done|].
        destruct (channel_found e); by repeat constructor.
    + rewrite (award_overflow _ _ _ _ _ _ _ _ E Hp) in H by lia. injection H as <- <-.
      left. split; [done|discriminate].
  - destruct (quiet_get_points e issue_number w _ _ E) as [Hs Hn].
    rewrite (award_raise _ _ _ _ _ _ _ _ E) in H. injection H as <- <-. left.
    split; [done|discriminate].
Qed.

Lemma quiet_then_award {A} (e : env) (m : M A) (f : A → M response) :
  quiet m → (∀ a, at_most_one_award e (f a)) → at_most_one_award e (m ≫= f).
Proof.
  intros Hm Hf w r w'. rewrite bind_run. destruct (m w) as [[a|x] w1] eqn:E.
  - intros H. destruct (Hm _ _ _ E) as [Hs Hn].
    destruct (Hf a _ _ _ H) as [[[Hs' Hn'] Hr]|[Hr (name & points & t & v & Hp & Hs' & Hn')]].
    + left. repeat split; [congruence|congruence|done].
    + right. split; [done|]. exists name, points, t, v. rewrite <- Hs, <- Hn. done.
  - intros [= <- <-]. left. split; [by apply (Hm _ _ _ E)|discriminate].
Qed.

Lemma quiet_no_content (e : env) (m : M unit) :
  quiet m → at_most_one_award e (m ≫= fun _ => ret no_content).
Proof.
  intros Hm. apply quiet_then_award; [done|]. intros _ w r w' [= <- <-].
  left. split; [done|]. by intros x [= <-].
Qed.

Lemma link_issue_at_most_once (e : env) (username number title url body : json) :
  at_most_one_award e (link_issue e username number title url body).
Proof.
  unfold link_issue. apply quiet_then_award; [apply quiet_lift|]. intros [groups|].
  - apply quiet_then_award; [apply quiet_lift|]. intros n. apply award_at_most_once.
  - apply quiet_no_content. by apply quiet_emit.
Qed.

Lemma process_payload_at_most_once (e : env) (rq : request) :
  at_most_one_award e (process_payload e rq).
Proof.
  unfold process_payload. apply quiet_then_award; [apply quiet_get_json|]. intros data.
  apply quiet_then_award; [apply quiet_lift|]. intros action.
  apply quiet_then_award.
  { destruct (eq_str action _); [|apply quiet_ret].
    repeat (apply quiet_bind; [apply quiet_lift|]; intros ?). apply quiet_ret. }
  intros [|].
  - do 7 (apply quiet_then_award; [apply quiet_lift|]; intros ?).
    apply link_issue_at_most_once.
  - intros w r w' [= <- <-]. left. split; [done|]. by intros x [= <-].
Qed.

Lemma webhook_at_most_once (e : env) (rq : request) :
  at_most_one_award e (github_webhook e rq).
Proof.
  unfold github_webhook. apply quiet_then_award; [apply quiet_verify_signature|].
  intros _. apply process_payload_at_most_once.
Qed.

(** Whatever the request (the login of its author being text when it gets
    as far as the ledger), a delivery either leaves the ledger and the
    announcements untouched, or it answers 204 after exactly one award: one
    record gains 5, 10 or 20 points (being created when absent), and one
    announcement of it is dispatched when the channel is found, none
    otherwise. *)
Theorem delivery_awards_at_most_once (e : env) (rq : request) (w : world) :
  (github_webhook e rq w).1 ≠ Raise NotModelled →
  untouched w (github_webhook e rq w).2
  ∨ ((github_webhook e rq w).1 = Ret no_content ∧ awarded e w (github_webhook e rq w).2).
Proof.
  intros _. destruct (github_webhook e rq w) as [r w'] eqn:E.
  destruct (webhook_at_most_once e rq w r w' E) as [[H _]|H]; [by left|by right].
Qed.

Lemma delivery_awards_at_most_once_witness :
  let e := deployment (service_42 [u "hard"]) in
  let rq := delivery (pull_request_event (u "closed") true (JStr (u "Fixes #42"))) in
  let w := World {[u "octocat" := 5%Z]} [] in
  untouched w (github_webhook e rq w).2
  ∨ ((github_webhook e rq w).1 = Ret no_content ∧ awarded e w (github_webhook e rq w).2).
Proof.
  apply (delivery_awards_at_most_once (deployment (service_42 [u "hard"]))
           (delivery (pull_request_event (u "closed") true (JStr (u "Fixes #42"))))
           (World {[u "octocat" := 5%Z]} [])).
  vm_compute. discriminate.
Defined.

(** The only response the view itself returns is the empty body with status
    204; every other end of a delivery is an exception ([abort] included). *)
Theorem delivery_returns_only_204 (e : env) (rq : request) (w : world)
    (x : response) :
  fst (github_webhook e rq w) = Ret x →
  x = no_content ∧ http_status (fst (github_webhook e rq w)) = 204%Z.
Proof.
  destruct (github_webhook e rq w) as [r w'] eqn:E. cbn [fst]. intros ->.
  destruct (webhook_at_most_once e rq w _ w' E) as [[_ H]|[H _]].
  - by rewrite (H x eq_refl).
  - by injection H as ->.
Qed.

Lemma delivery_returns_only_204_witness :
  ([], 204%Z) = no_content
  ∧ http_status
      (fst (github_webhook (deployment (service_42 [u "hard"]))
              (delivery (pull_request_event (u "closed") true (JStr (u "Fixes #42"))))
              (World ∅ [])))
    = 204%Z.
Proof.
  apply (delivery_returns_only_204 (deployment (service_42 [u "hard"]))
           (delivery (pull_request_event (u "closed") true (JStr (u "Fixes #42"))))
           (World ∅ []) ([], 204%Z)).
  vm_compute. reflexivity.
Defined.

(** No delivery lowers or removes a record: every record of the ledger is
    still there afterwards, with at least the points it had (the login of
    the author being text when the delivery gets as far as the ledger). *)
Theorem delivery_never_lowers_a_score (e : env) (rq : request) (w : world)
    (identity : str) (points : Z) :
  (github_webhook e rq w).1 ≠ Raise NotModelled →
  scores w !! identity = Some points →
  ∃ points', scores (github_webhook e rq w).2 !! identity = Some points'
             ∧ (points ≤ points')%Z.
Proof.
  intros _ Hp. destruct (github_webhook e rq w) as [r w'] eqn:E. cbn [snd].
  destruct (webhook_at_most_once e rq w r w' E)
    as [[[Hs _] _]|[_ (name & delta & _ & _ & Hd & Hs & _)]].
  - exists points. by rewrite Hs.
  - rewrite Hs. unfold accumulate. destruct (decide (name = identity)) as [->|Hne].
    + rewrite lookup_insert_eq, Hp. cbn. eexists. split; [done|].
      rewrite !elem_of_cons in Hd. destruct Hd as [->|[->|[->|[]%elem_of_nil]]]; lia.
    + rewrite lookup_insert_ne by done. exists points. by split.
Qed.

Lemma delivery_never_lowers_a_score_witness :
  ∃ points',
    scores (github_webhook (deployment (service_42 [u "hard"]))
              (delivery (pull_request_event (u "closed") true (JStr (u "Fixes #42"))))
              (World {[u "octocat" := 5%Z]} [])).2 !! u "octocat" = Some points'
    ∧ (5 ≤ points')%Z.
Proof.
  apply (delivery_never_lowers_a_score (deployment (service_42 [u "hard"]))
           (delivery (pull_request_event (u "closed") true (JStr (u "Fixes #42"))))
           (World {[u "octocat" := 5%Z]} []) (u "octocat") 5).
  - vm_compute. discriminate.
  - apply lookup_singleton_eq.
Defined.

(** ** A merged pull request, end to end *)

(** A merged pull request whose description links an issue that the service
    knows: the author's record gains the points of the issue's labels (it is
    created when absent), the score update is printed, the announcement is
    dispatched when the channel is found, and the answer is 204.  When no
    label counts, nothing is written or announced, and the answer is 204 all
    the same.  The issue number has no more digits than [int] converts, and
    the record stays within the integers the table stores. *)
Theorem merged_pull_request_scored (e : env) (rq : request) (ev : merge_event)
    (ds : str) (n : Z) (data : json) (items : list json) (names : list str)
    (w : world) :
  merged_delivery e rq ev →
  first_reference (isdecimal e) (default [] (body ev)) ds →
  (length ds ≤ 4300)%nat →
  int_of_str (decimal_value e) ds = Ret n →
  (default 0 (scores w !! author_identity ev) + 20 < 2 ^ 63)%Z →
  requests_get e (issue_url n) = Responded 200 (Some data) →
  dict_get data (u "labels") (JList []) = Ret (JList items) →
  Forall2 (fun item name => getitem item (u "name") = Ret (JStr name)) items names →
  let points := label_points (list_to_set (map (str_lower e) names)) in
  github_webhook e rq w
  = (Ret no_content,
     if (0 <? points)%Z then
       World (accumulate (scores w) (author_identity ev) points)
         (trace w
            ++ [EvalJson; HttpGet (issue_url n);
                Print (UpdatedScore (author_identity ev) points)]
            ++ (if channel_found e
                then [ChannelSend (title ev) (url ev) (author_identity ev) points]
                else []))
     else after w [EvalJson; HttpGet (issue_url n)]).
Proof.
  intros Hd Hds Hlen Hint Hmax Hget Hl Hnames points.
  destruct (webhook_first_reference e rq ev ds w Hd Hds Hlen) as (n' & Hn' & Hne & ->).
  assert (n = Z.of_N n') as ->.
  { rewrite (int_of_str_digits _ ds n') in Hint by done. congruence. }
  pose proof (get_points_200 e (Z.of_N n') data items names (after w [EvalJson])
                Hget Hl Hnames) as Hp. fold points in Hp. rewrite after_after in Hp.
  pose proof (label_points_range (list_to_set (map (str_lower e) names))) as Hr.
  fold points in Hr. rewrite !elem_of_cons in Hr.
  change (2 ^ 63)%Z with (sqlite_max_integer + 1)%Z in Hmax.
  destruct (0 <? points)%Z eqn:Hpos.
  - apply Z.ltb_lt in Hpos. rewrite (award_points _ _ _ _ _ _ _ _ Hp Hpos).
    + unfold after, accumulate. cbn [scores trace]. rewrite <- !app_assoc. reflexivity.
    + unfold after. cbn [scores].
      destruct Hr as [?|[?|[?|[?|[]%elem_of_nil]]]]; lia.
  - assert (points = 0%Z) as Hz.
    { apply Z.ltb_ge in Hpos. destruct Hr as [?|[?|[?|[?|[]%elem_of_nil]]]]; lia. }
    rewrite Hz in Hp. by rewrite (award_zero _ _ _ _ _ _ _ Hp).
Qed.

Lemma merged_pull_request_scored_witness :
  github_webhook (deployment (service_42 [u "Hard"; u "easy"]))
    (delivery (pull_request_event (u "closed") true (JStr (u "Fixes #42"))))
    (World {[u "octocat" := 5%Z]} [])
  = (Ret no_content,
     World {[u "octocat" := 25%Z]}
       [EvalJson; HttpGet (issue_url 42); Print (UpdatedScore (u "octocat") 20);
        ChannelSend (JStr (u "Add parser")) (JStr (u "https://github.com/o/r/pull/7"))
          (u "octocat") 20]).
Proof.
  etransitivity.
  - apply (merged_pull_request_scored (deployment (service_42 [u "Hard"; u "easy"]))
             (delivery (pull_request_event (u "closed") true (JStr (u "Fixes #42"))))
             (octocat_event (Some (u "Fixes #42"))) (u "42") 42
             (issue_with_labels [u "Hard"; u "easy"])
             (map (fun name => JDict [(u "name", JStr name)]) [u "Hard"; u "easy"])
             [u "Hard"; u "easy"] (World {[u "octocat" := 5%Z]} [])
             (octocat_delivery _ _) (fixes_42_reference _));
      [vm_compute; lia|vm_compute; reflexivity..|repeat constructor].
  - vm_compute. reflexivity.
Defined.

(** ** The leaderboard *)

(** The leaderboard shows the highest scores: a record that is not shown has
    no more points than any record shown; and when the ledger has no more
    records than the limit, all of them are shown. *)
Theorem leaderboard_shows_the_highest (n : nat) (db : gmap str Z) :
  (∀ identity points row,
     db !! identity = Some points → (identity, points) ∉ select_top n db →
     row ∈ select_top n db → (points ≤ row.2)%Z)
  ∧ ((size db ≤ n)%nat → select_top n db ≡ₚ map_to_list db).
Proof.
  unfold select_top. split.
  - intros identity points row Hp Hout Hin.
    apply elem_of_map_to_list in Hp. rewrite <- sorted_rows_perm in Hp.
    rewrite <- (take_drop n (merge_sort points_desc (map_to_list db))) in Hp.
    apply elem_of_app in Hp as [Hp|Hp]; [done|].
    apply (StronglySorted_app_1_elem_of points_desc
             (take n (merge_sort points_desc (map_to_list db)))
             (drop n (merge_sort points_desc (map_to_list db))) row (identity, points));
      [|done..].
    rewrite take_drop. apply StronglySorted_merge_sort; apply _.
  - intros Hsize. rewrite take_ge; [apply sorted_rows_perm|].
    by rewrite sorted_rows_perm, length_map_to_list.
Qed.

(** ** Concurrent deliveries, whatever the schedule *)

Lemma step_other (c : Threads.call) (s : Threads.conn) (k : str) :
  Threads.username (Threads.step c s).1 = Threads.username c
  ∧ (k ≠ Threads.username c →
     Threads.table (Threads.step c s).2 !! k = Threads.table s !! k)
  ∧ (is_Some (Threads.table s !! k) → is_Some (Threads.table (Threads.step c s).2 !! k)).
Proof.
  assert (∀ v : Z, is_Some (Threads.table s !! k) →
            is_Some (<[Threads.username c := v]> (Threads.table s) !! k)) as Hins.
  { intros v Hk. destruct (decide (Threads.username c = k)) as [<-|Hne].
    - by rewrite lookup_insert_eq.
    - by rewrite lookup_insert_ne. }
  unfold Threads.step.
  destruct (Threads.at_line c) as [| |[p|]| | | |x].
  - done.
  - by destruct (Threads.cursor s).
  - destruct (bind_points _) as [bound|x]; [|done].
    destruct (Threads.table s !! Threads.username c); cbn; [|done].
    repeat apply conj; [done| |apply Hins]. intros Hk. by rewrite lookup_insert_ne.
  - destruct (bind_points _) as [bound|x]; [|done].
    destruct (Threads.table s !! Threads.username c); cbn; [done|].
    repeat apply conj; [done| |apply Hins]. intros Hk. by rewrite lookup_insert_ne.
  - done.
  - done.
  - done.
  - done.
Qed.

(** Under every schedule, however the statements of the calls interleave,
    the calls in flight only touch the records of their own contributors, and
    no record disappears. *)
Theorem interleaving_touches_only_callers (sched : list nat)
    (cs : list Threads.call) (s : Threads.conn) :
  (∀ other, Forall (fun c => Threads.username c ≠ other) cs →
     Threads.table (Threads.run_schedule sched cs s).2 !! other
     = Threads.table s !! other)
  ∧ (∀ k, is_Some (Threads.table s !! k) →
       is_Some (Threads.table (Threads.run_schedule sched cs s).2 !! k)).
Proof.
  revert cs s. induction sched as [|i sched IH]; intros cs s; [done|].
  cbn [Threads.run_schedule]. unfold Threads.step_at.
  destruct (cs !! i) as [c|] eqn:Hc; [|apply IH].
  destruct (Threads.step c s) as [c' s'] eqn:Hstep.
  destruct (step_other c s (Threads.username c)) as (Hu & _).
  destruct (IH (<[i := c']> cs) s') as [IH1 IH2]. split.
  - intros other Hall. rewrite IH1.
    + destruct (step_other c s other) as (_ & Ho & _). rewrite Hstep in Ho. apply Ho.
      rewrite Forall_forall in Hall. intros ->.
      apply (Hall c); [by eapply list_elem_of_lookup_2|done].
    + apply Forall_insert; [done|]. rewrite Hstep in Hu. cbn in Hu. rewrite Hu.
      rewrite Forall_forall in Hall. apply Hall. by eapply list_elem_of_lookup_2.
  - intros k Hk. apply IH2. destruct (step_other c s k) as (_ & _ & Hs).
    rewrite Hstep in Hs. by apply Hs.
Qed.

(** ** Numbers as text *)

Lemma int_digits_decimal_digits (value : char → option N) (fuel : nat) :
  (∀ d, d < 10 → value (48 + d) = Some d) →
  ∀ (n : N) (acc : str), fuel ≠ O → n < 10 ^ N.of_nat fuel →
    ∃ k, ∀ a, int_digits value (decimal_digits fuel n acc) a
              = int_digits value acc (a * 10 ^ k + n).
Proof.
  intros Hv. induction fuel as [|fuel IH]; intros n acc Hf Hn; [done|].
  cbn [decimal_digits]. destruct (n <? 10) eqn:Hlt.
  - apply N.ltb_lt in Hlt. exists 1. intros a. cbn [int_digits].
    rewrite N.mod_small, Hv by done. f_equal. lia.
  - apply N.ltb_ge in Hlt.
    assert (n mod 10 < 10) as Hmod by (apply N.mod_upper_bound; lia).
    assert (fuel ≠ O) as Hf'.
    { intros ->. cbn in Hn. lia. }
    assert (n / 10 < 10 ^ N.of_nat fuel) as Hdiv.
    { apply N.Div0.div_lt_upper_bound. rewrite Nat2N.inj_succ, N.pow_succ_r' in Hn. lia. }
    destruct (IH (n / 10) ((48 + n mod 10) :: acc) Hf' Hdiv) as [k Hk].
    exists (k + 1). intros a. rewrite Hk. cbn [int_digits]. rewrite Hv by done.
    f_equal. rewrite N.pow_add_r, N.pow_1_r.
    pose proof (N.div_mod n 10 ltac:(lia)). lia.
Qed.

Lemma decimal_digits_not_nil (fuel : nat) (n : N) (acc : str) :
  acc ≠ [] → decimal_digits fuel n acc ≠ [].
Proof.
  revert n acc. induction fuel as [|fuel IH]; intros n acc Hacc; [done|].
  cbn [decimal_digits]. destruct (n <? 10); [done|]. by apply IH.
Qed.

Lemma str_of_N_not_nil (n : N) : str_of_N n ≠ [].
Proof.
  unfold str_of_N. cbn [decimal_digits]. destruct (n <? 10); [done|].
  by apply decimal_digits_not_nil.
Qed.

Lemma fuel_suffices (n : N) : n < 10 ^ N.of_nat (S (N.to_nat (N.log2 n))).
Proof.
  rewrite Nat2N.inj_succ, N2Nat.id. destruct (decide (n = 0)) as [->|Hn]; [done|].
  apply N.lt_le_trans with (2 ^ N.succ (N.log2 n)).
  - apply N.log2_spec. lia.
  - apply N.pow_le_mono_l. lia.
Qed.

Lemma decimal_digits_length (fuel : nat) :
  ∀ (n : N) (acc : str) (k : nat), (1 ≤ k)%nat → n < 10 ^ N.of_nat k →
    (length (decimal_digits fuel n acc) ≤ k + length acc)%nat.
Proof.
  induction fuel as [|fuel IH]; intros n acc k Hk Hn; cbn [decimal_digits]; [lia|].
  destruct (n <? 10) eqn:Hlt; [cbn [length]; lia|].
  apply N.ltb_ge in Hlt. destruct k as [|[|k]]; [lia| |].
  - change (10 ^ N.of_nat 1) with 10 in Hn. lia.
  - assert (n / 10 < 10 ^ N.of_nat (S k)) as Hdiv.
    { apply N.Div0.div_lt_upper_bound.
      rewrite (Nat2N.inj_succ (S k)), N.pow_succ_r' in Hn. lia. }
    specialize (IH (n / 10) ((48 + n mod 10) :: acc) (S k) ltac:(lia) Hdiv).
    cbn [length] in IH. lia.
Qed.

Lemma str_of_N_length (n : N) (k : nat) :
  (1 ≤ k)%nat → n < 10 ^ N.of_nat k → (length (str_of_N n) ≤ k)%nat.
Proof.
  intros Hk Hn. pose proof (decimal_digits_length (S (N.to_nat (N.log2 n))) n [] k Hk Hn) as H.
  cbn [length] in H. unfold str_of_N. lia.
Qed.

(** The text of an issue number reads back as the number: for every natural
    number of no more digits than the conversions take, [int] of its decimal
    text (as it appears in the address fetched) is the number again; so two
    different issue numbers are never fetched at the same address. *)
Theorem issue_number_round_trip (value : char → option N) (n m : N) :
  (∀ d, d < 10 → value (48 + d) = Some d) →
  n < 10 ^ 4300 → m < 10 ^ 4300 →
  int_of_str value (str_of_int (Z.of_N n)) = Ret (Z.of_N n)
  ∧ (issue_url (Z.of_N n) = issue_url (Z.of_N m) → n = m).
Proof.
  intros Hv Hn Hm.
  change 4300 with (N.of_nat int_max_str_digits) in Hn, Hm.
  assert (∀ k, k < 10 ^ N.of_nat int_max_str_digits →
            int_of_str value (str_of_int (Z.of_N k)) = Ret (Z.of_N k)) as Hround.
  { intros k Hk. unfold str_of_int. destruct (Z.of_N k <? 0)%Z eqn:Hneg.
    { apply Z.ltb_lt in Hneg. lia. }
    rewrite N2Z.id.
    destruct (int_digits_decimal_digits value (S (N.to_nat (N.log2 k))) Hv k []
                ltac:(done) (fuel_suffices k)) as [j Hj].
    fold (str_of_N k) in Hj. specialize (Hj 0). cbn [int_digits] in Hj.
    rewrite N.mul_0_l, N.add_0_l in Hj.
    apply int_of_str_digits; [apply str_of_N_not_nil| |exact Hj].
    apply str_of_N_length; [|exact Hk]. unfold int_max_str_digits. lia. }
  split; [by apply Hround|].
  intros Heq. unfold issue_url in Heq. do 3 apply app_inv_head in Heq.
  pose proof (Hround n Hn) as Hrn. rewrite Heq, (Hround m Hm) in Hrn.
  injection Hrn. clear Hn Hm Hround. lia.
Qed.

Lemma issue_number_round_trip_witness :
  int_of_str basic_latin_decimal (str_of_int (Z.of_N 1024)) = Ret (Z.of_N 1024)
  ∧ (issue_url (Z.of_N 1024) = issue_url (Z.of_N 42) → 1024 = 42).
Proof.
  apply (issue_number_round_trip basic_latin_decimal 1024 42);
    [|vm_compute; reflexivity..].
  intros d Hd. unfold basic_latin_decimal.
  replace ((48 <=? 48 + d) && (48 + d <=? 57)) with true.
  - f_equal. lia.
  - symmetry. apply andb_true_iff. split; apply N.leb_le; lia.
Defined.

(** ** The expected signature *)

Lemma be_bytes_length (n : nat) (x : N) : length (Sha256.be_bytes n x) = n.
Proof. induction n as [|n IH]; cbn; [done|]. by rewrite IH. Qed.

Lemma blocks_length (n : nat) (h : list N) (bs : bytes) :
  length h = 8%nat → length (Sha256.blocks n h bs) = 8%nat.
Proof.
  revert h bs. induction n as [|n IH]; intros h bs Hh; cbn [Sha256.blocks]; [done|].
  by apply IH.
Qed.

Lemma sha256_digest_length (msg : bytes) : length (Sha256.digest msg) = 32%nat.
Proof.
  unfold Sha256.digest. cbv zeta.
  pose proof (blocks_length (length (Sha256.pad msg) / 64) Sha256.H0 (Sha256.pad msg) eq_refl)
    as Hlen.
  destruct (Sha256.blocks _ _ _) as [|a [|b [|c [|d [|e [|f [|g [|h [|]]]]]]]]];
    try discriminate Hlen.
  cbn [flat_map]. rewrite !length_app, !be_bytes_length. done.
Qed.

Lemma hex_digit_is_hex (d : N) :
  hex_digit (d mod 16) ∈ u "0123456789abcdef".
Proof.
  assert (d mod 16 < 16) as Hlt by (apply N.mod_upper_bound; lia).
  generalize dependent (d mod 16). intros x Hlt.
  assert (x = 0 ∨ x = 1 ∨ x = 2 ∨ x = 3 ∨ x = 4 ∨ x = 5 ∨ x = 6 ∨ x = 7 ∨ x = 8
          ∨ x = 9 ∨ x = 10 ∨ x = 11 ∨ x = 12 ∨ x = 13 ∨ x = 14 ∨ x = 15) as Hx by lia.
  apply list_elem_of_In.
  repeat (destruct Hx as [->|Hx]; [vm_compute; tauto|]).
  subst x. vm_compute. tauto.
Qed.

(** The expected signature is always the prefix "sha256=" followed by
    exactly 64 lower-case hexadecimal digits, 71 ASCII characters in all;
    a header of any other shape cannot be the signature of its body. *)
Theorem expected_signature_shape (key body : bytes) :
  length (expected_signature key body) = 71%nat
  ∧ take 7 (expected_signature key body) = u "sha256="
  ∧ Forall (fun c => c ∈ u "0123456789abcdef") (drop 7 (expected_signature key body))
  ∧ (∀ e rq s, secret_key e = key → data rq = body → signature_header rq = Some s →
       length s ≠ 71%nat → ¬ authentic e rq).
Proof.
  assert (∀ bs, length (hex bs) = (2 * length bs)%nat) as Hhex.
  { intros bs. unfold hex. induction bs as [|b bs IH]; [done|].
    cbn [flat_map app length]. rewrite IH. lia. }
  assert (length (expected_signature key body) = 71%nat) as Hlen.
  { unfold expected_signature, Hmac.digest. cbv zeta.
    rewrite length_app, Hhex, sha256_digest_length. reflexivity. }
  repeat apply conj.
  - exact Hlen.
  - reflexivity.
  - change (drop 7 (expected_signature key body)) with (hex (Hmac.digest key body)).
    unfold hex. induction (Hmac.digest key body) as [|b bs IH]; [constructor|].
    cbn [flat_map app]. constructor; [apply hex_digit_is_hex|].
    constructor; [apply hex_digit_is_hex|exact IH].
  - intros e rq s <- <- Hs Hne Ha. unfold authentic in Ha. rewrite Hs in Ha.
    injection Ha as ->. done.
Qed.

(** ** What a closing reference needs *)

Lemma reference_at_marks (isdec : char → bool) (s ds : str) :
  reference_at isdec s ds →
  35 ∈ s ∧ Exists (fun c => isdec c = true) s ∧ Exists (fun c => Re.isspace c = true) s.
Proof.
  intros (kw & w & ws & rest & _ & _ & Hws & Hne & Hds & _ & ->).
  repeat apply conj.
  - rewrite elem_of_app, !elem_of_cons. auto.
  - destruct ds as [|d ds]; [done|]. apply Forall_cons in Hds as [Hd _].
    apply Exists_app. right. do 2 apply Exists_cons_tl. by apply Exists_cons_hd.
  - apply Exists_app. right. by apply Exists_cons_hd.
Qed.

(** A description of a merged pull request that has no hash sign, or no
    decimal digit, or no white-space character, references no issue: the
    delivery is answered 204, the message that no issue is linked is printed,
    nothing is fetched, and no score changes. *)
Theorem description_without_marks (e : env) (rq : request) (ev : merge_event) (w : world) :
  merged_delivery e rq ev →
  35 ∉ default [] (body ev)
  ∨ Forall (fun c => isdecimal e c = false) (default [] (body ev))
  ∨ Forall (fun c => Re.isspace c = false) (default [] (body ev)) →
  no_reference (isdecimal e) (default [] (body ev))
  ∧ github_webhook e rq w
    = (Ret no_content, after w [EvalJson; Print (NoLinkedIssue (pr_number ev))])
  ∧ scores (snd (github_webhook e rq w)) = scores w.
Proof.
  intros Hd Hmarks.
  assert (no_reference (isdecimal e) (default [] (body ev))) as Hno.
  { intros before from_here ds Heq (Hhash & Hdec & Hsp)%reference_at_marks.
    rewrite Heq in Hmarks. destruct Hmarks as [H|[H|H]].
    - apply H. rewrite elem_of_app. by right.
    - apply Forall_app in H as [_ H]. apply Exists_exists in Hdec as (c & Hc & Hdec).
      rewrite Forall_forall in H. specialize (H c Hc). congruence.
    - apply Forall_app in H as [_ H]. apply Exists_exists in Hsp as (c & Hc & Hsp).
      rewrite Forall_forall in H. specialize (H c Hc). congruence. }
  split; [exact Hno|].
  assert (github_webhook e rq w
          = (Ret no_content, after w [EvalJson; Print (NoLinkedIssue (pr_number ev))])) as ->.
  { rewrite (webhook_merged e rq ev w Hd). rewrite link_issue_none by done.
    by rewrite after_after. }
  split; reflexivity.
Qed.

Lemma description_without_marks_witness :
  let e := deployment (service_42 [u "medium"]) in
  let rq := delivery (pull_request_event (u "closed") true
                        (JStr (u "Fixes https://github.com/o/r/issues/42"))) in
  let ev := octocat_event (Some (u "Fixes https://github.com/o/r/issues/42")) in
  let w := World ∅ [] in
  no_reference (isdecimal e) (default [] (body ev))
  ∧ github_webhook e rq w
    = (Ret no_content, after w [EvalJson; Print (NoLinkedIssue (pr_number ev))])
  ∧ scores (snd (github_webhook e rq w)) = scores w.
Proof.
  apply (description_without_marks (deployment (service_42 [u "medium"]))
           (delivery (pull_request_event (u "closed") true
                        (JStr (u "Fixes https://github.com/o/r/issues/42"))))
           (octocat_event (Some (u "Fixes https://github.com/o/r/issues/42")))
           (World ∅ [])).
  - apply octocat_delivery.
  - left. intros H. apply list_elem_of_In in H. vm_compute in H. intuition discriminate.
Defined.
